(** * Batch scheduling, padding and log-likelihood extraction of
      [lm_eval/models/huggingface.py] (class [HuggingfaceCausalLM])

    The development embeds the list-level part of the evaluator: Python
    slicing, the left truncation of a (context, continuation) pair, the
    right padding of a batch, the extraction of the summed log-probability
    and of the greedy flag, the stop-string truncation of greedy generation,
    and the three public entry points.  The model and the tokenizer are
    fields of the record that stands for [self]; the helpers of
    [lm_eval.utils] are modelled from the specification. *)

From stdpp Require Import base numbers list sorting gmap strings.

Local Open Scope Z_scope.

(** ** Exceptions and the error monad *)

(** The exceptions the embedded code can raise. [BackendError] stands for
    any failure inside the model's forward pass or generation. *)
Inductive exn : Type :=
| AssertionError
| RuntimeError
| ValueError
| TypeError
| IndexError
| AttributeError
| BackendError.

Inductive result (A : Type) : Type :=
| Ok (a : A)
| Raise (e : exn).
Arguments Ok {A} a.
Arguments Raise {A} e.

Global Instance result_ret : MRet result := fun A a => Ok a.

Global Instance result_bind : MBind result := fun A B k m =>
  match m with
  | Ok a => k a
  | Raise e => Raise e
  end.

(** [assert c] *)
Definition py_assert (c : bool) : result unit :=
  if c then Ok tt else Raise AssertionError.

(** A loop that threads an accumulator and stops at the first exception. *)
Fixpoint foldlM {A B : Type} (f : B -> A -> result B) (acc : B) (l : list A)
    : result B :=
  match l with
  | [] => Ok acc
  | x :: l' => acc' ← f acc x; foldlM f acc' l'
  end.

(** ** Python sequences *)

Definition len {A : Type} (l : list A) : Z := Z.of_nat (length l).

(** A slice bound [i] of a sequence of length [n], as [slice.indices] with
    step 1 computes it: a negative bound counts from the end, and the
    result is clipped to [0, n]. *)
Definition py_bound (n i : Z) : Z :=
  if i <? 0 then Z.max (i + n) 0 else Z.min i n.

(** [l[start:stop]]; [None] is an omitted bound. *)
Definition py_slice {A : Type} (start stop : option Z) (l : list A) : list A :=
  let n := len l in
  let lo := match start with Some i => py_bound n i | None => 0 end in
  let hi := match stop with Some j => py_bound n j | None => n end in
  take (Z.to_nat (hi - lo)) (drop (Z.to_nat lo) l).

(** Python's [zip] of two sequences stops at the shorter one; it is [zip]
    of the list library. *)

(** [list(enumerate(l))], counting from [i]. *)
Fixpoint enumerate_from {A : Type} (i : nat) (l : list A) : list (nat * A) :=
  match l with
  | [] => []
  | x :: l' => (i, x) :: enumerate_from (S i) l'
  end.

(** The order [<=] of the values used as sort keys: integers, strings,
    and tuples and pairs compared lexicographically. *)
Class PyOrd (K : Type) := py_le : K -> K -> bool.

Global Instance Z_PyOrd : PyOrd Z := Z.leb.

Global Instance string_PyOrd : PyOrd string := String.leb.

Fixpoint tuple_le {A : Type} `{PyOrd A} (l1 l2 : list A) : bool :=
  match l1, l2 with
  | [], _ => true
  | _ :: _, [] => false
  | a :: l1', b :: l2' =>
      if py_le a b then (if py_le b a then tuple_le l1' l2' else true)
      else false
  end.

Global Instance tuple_PyOrd {A : Type} `{PyOrd A} : PyOrd (list A) := tuple_le.

Global Instance pair_PyOrd {A B : Type} `{PyOrd A} `{PyOrd B} : PyOrd (A * B) :=
  fun p q =>
    if py_le p.1 q.1 then (if py_le q.1 p.1 then py_le p.2 q.2 else true)
    else false.

(** ** [lm_eval.utils.Reorderer] and [lm_eval.utils.chunks] *)

Section Reorderer.
Context {A K : Type} `{PyOrd K}.
Variable fn : A -> K.

(** [insert_by x l] puts [x] in front of the first entry whose key is not
    below the key of [x]: entries with an equal key stay behind it. *)
Fixpoint insert_by (x : nat * A) (l : list (nat * A)) : list (nat * A) :=
  match l with
  | [] => [x]
  | y :: l' =>
      if py_le (fn x.2) (fn y.2) then x :: y :: l' else y :: insert_by x l'
  end.

Fixpoint stable_sort (l : list (nat * A)) : list (nat * A) :=
  match l with
  | [] => []
  | x :: l' => insert_by x (stable_sort l')
  end.

(** Modelled from the spec: the class [Reorderer] of [lm_eval.utils], which
    is not among the sources. It is an array of [(original_index, item)]
    pairs, stably sorted by the key [fn], together with the original size. *)
Record Reorderer : Type := mkReorderer {
  ro_size : nat;
  ro_arr : list (nat * A)
}.

Definition Reorderer_init (arr : list A) : Reorderer :=
  {| ro_size := length arr; ro_arr := stable_sort (enumerate_from 0 arr) |}.

Definition get_reordered (re_ord : Reorderer) : list A :=
  (ro_arr re_ord).*2.

(** Modelled from the spec: [Reorderer.get_original], the restoration by
    scatter into an output array of the original size; a slot that no result
    reaches holds [None]. The indices of [ro_arr] are below [ro_size]. *)
Definition get_original {V : Type} (re_ord : Reorderer) (newarr : list V)
    : list (option V) :=
  foldl (fun res '((ind, _), v) => <[ind := Some v]> res)
        (replicate (ro_size re_ord) None)
        (zip (ro_arr re_ord) newarr).
End Reorderer.

(** Modelled from the spec: [lm_eval.utils.chunks], which is not among the
    sources: contiguous groups of [n] items, the last one possibly smaller. *)
Fixpoint chunks_from {A : Type} (n : Z) (arr : list A) (l : list A)
    : list (list A) :=
  match l with
  | [] => match arr with [] => [] | _ => [arr] end
  | x :: l' =>
      let arr' := arr ++ [x] in
      if len arr' =? n then arr' :: chunks_from n [] l'
      else chunks_from n arr' l'
  end.

Definition chunks {A : Type} (iter : list A) (n : Z) : list (list A) :=
  chunks_from n [] iter.

(** ** Tensors and their numerics *)

(** The scores of the model are floating-point numbers; the development is
    generic in them. [fadd] and [fzero] are the addition and zero of sums,
    [fltb] the strict comparison of [argmax], and [log_softmax] is
    [F.log_softmax] along the vocabulary dimension. *)
Class Numerics (R : Type) : Type := {
  fzero : R;
  fadd : R -> R -> R;
  fltb : R -> R -> bool;
  log_softmax : list R -> list R
}.

(** [torch.zeros(n, dtype=torch.long)]: a negative size is refused. *)
Definition torch_zeros (n : Z) : result (list Z) :=
  if n <? 0 then Raise RuntimeError else Ok (replicate (Z.to_nat n) 0).

(** [torch.cat(rows, dim=0)] of rows of shape [1, width]: the list must
    not be empty and the widths must agree. *)
Definition torch_cat (rows : list (list Z)) : result (list (list Z)) :=
  match rows with
  | [] => Raise RuntimeError
  | r :: _ =>
      if forallb (fun r' => len r' =? len r) rows then Ok rows
      else Raise RuntimeError
  end.

Section Tensor.
Context {R : Type} `{Numerics R}.

(** [row.argmax()]: the index of the first maximal entry. *)
Fixpoint argmax_from (best_i : Z) (best : R) (i : Z) (row : list R) : Z :=
  match row with
  | [] => best_i
  | x :: row' =>
      if fltb best x then argmax_from i x (i + 1) row'
      else argmax_from best_i best (i + 1) row'
  end.

Definition argmax (row : list R) : result Z :=
  match row with
  | [] => Raise RuntimeError
  | x :: row' => Ok (argmax_from 0 x 1 row')
  end.

(** [(a == b).all()] for [a] and [b] of shapes [1, n] and [1, m], with the
    broadcasting of a dimension of size one. *)
Definition eq_all (a b : list Z) : result bool :=
  if len a =? len b then Ok (forallb (fun p => p.1 =? p.2) (zip a b))
  else if len a =? 1 then Ok (forallb (fun y => hd 0 a =? y) b)
  else if len b =? 1 then Ok (forallb (fun x => x =? hd 0 b) a)
  else Raise RuntimeError.

(** [row[i]] for a tensor index [i]: out of range is an error, and a
    negative index is out of range. *)
Definition tensor_at (row : list R) (i : Z) : result R :=
  if i <? 0 then Raise RuntimeError
  else match row !! Z.to_nat i with
       | Some v => Ok v
       | None => Raise RuntimeError
       end.

(** [torch.gather(logits, 2, index.unsqueeze(-1)).squeeze(-1)] for [logits]
    of shape [1, n, vocab] and [index] of shape [1, m]: the index must not
    be longer than [logits], and entry [k] is [logits[k][index[k]]]. *)
Definition gather (logits : list (list R)) (index : list Z) : result (list R) :=
  if len index <=? len logits
  then mapM (fun p => tensor_at p.1 p.2) (zip logits index)
  else Raise RuntimeError.

(** [float(t.sum())] *)
Definition tensor_sum (t : list R) : R := foldl fadd fzero t.

(** ** LogLikelihoodExtractor: huggingface.py, lines 255-275 *)
Definition extract (logits : list (list R)) (inplen : Z) (cont_toks : list Z)
    : result (R * bool) :=
  let contlen := len cont_toks in
  let logits := py_slice (Some (inplen - contlen)) (Some inplen) logits in
  greedy_tokens ← mapM argmax logits;
  max_equal ← eq_all greedy_tokens cont_toks;
  logits ← gather logits cont_toks;
  Ok (tensor_sum logits, max_equal).

(** The spec's words for the extractor: the distribution at position [k] of
    the span that starts at [input_length - continuation_length]. *)
Definition distribution (log_probs : list (list R)) (input_length : Z)
    (continuation_tokens : list Z) (k : nat) : list R :=
  default [] (log_probs !! (Z.to_nat (input_length - len continuation_tokens) + k)%nat).

(** [distribution_k[continuation_token_k]] *)
Definition token_log_prob (log_probs : list (list R)) (input_length : Z)
    (continuation_tokens : list Z) (k : nat) : R :=
  default fzero
    (distribution log_probs input_length continuation_tokens k
       !! Z.to_nat (default 0 (continuation_tokens !! k))).

(** The sum over [k] of [distribution_k[continuation_token_k]]. *)
Definition log_probability_spec (log_probs : list (list R)) (input_length : Z)
    (continuation_tokens : list Z) : R :=
  foldl (fun acc k =>
           fadd acc (token_log_prob log_probs input_length continuation_tokens k))
        fzero (seq 0 (length continuation_tokens)).
End Tensor.

(** ** The evaluator *)

(** The collaborators reached through [self]: the tokenizer, the model and
    the static properties. *)
Record HuggingfaceCausalLM (R : Type) : Type := {
  eot_token_id : Z;
  max_length : Z;
  batch_size : Z;
  tok_encode : string -> list Z;
  tok_decode : list Z -> string;
  _model_call : list (list Z) -> result (list (list (list R)));
  _model_generate : list (list Z) -> Z -> Z -> result (list (list Z))
}.
Arguments eot_token_id {R} _.
Arguments max_length {R} _.
Arguments batch_size {R} _.
Arguments tok_encode {R} _ _.
Arguments tok_decode {R} _ _.
Arguments _model_call {R} _ _.
Arguments _model_generate {R} _ _ _ _.

Definition max_gen_toks : Z := 256.

(** A request of [_loglikelihood_tokens]: the cache key (the two strings, or
    [None] for a rolling window), [context_enc] and [continuation_enc]. *)
Definition encoded_request : Type := option (string * string) * list Z * list Z.

Definition context_of (x : encoded_request) : list Z := x.1.2.
Definition continuation_of (x : encoded_request) : list Z := x.2.

(** The key of likelihood scoring: the negated length of the tokens, then
    the tokens. *)
Definition _collate (x : encoded_request) : Z * list Z :=
  let toks := context_of x ++ continuation_of x in
  (- len toks, toks).

(** The lists a batch is assembled into. *)
Record batch : Type := mkBatch {
  inps : list (list Z);
  cont_toks_list : list (list Z);
  inplens : list Z;
  padding_length : option Z
}.

Definition empty_batch : batch :=
  {| inps := []; cont_toks_list := []; inplens := []; padding_length := None |}.

(** The lines 309-310 work on strings: [s.split(term)]. [split_from] scans
    [s] from the left; [skip] counts the characters of a separator just
    matched that are still to be passed, [cur] is the piece being built. *)
Fixpoint split_from (sep : string) (skip : nat) (cur : string) (s : string)
    : list string :=
  match s with
  | EmptyString => [cur]
  | String c s' =>
      match skip with
      | S skip' => split_from sep skip' cur s'
      | O =>
          if String.prefix sep s
          then cur :: split_from sep (String.length sep - 1) EmptyString s'
          else split_from sep O (cur +:+ String c EmptyString) s'
      end
  end.

(** [s.split(sep)]: an empty separator is a [ValueError]. *)
Definition py_split (s sep : string) : result (list string) :=
  match sep with
  | EmptyString => Raise ValueError
  | _ => Ok (split_from sep O EmptyString s)
  end.

(** [l[0]] *)
Definition py_first {A : Type} (l : list A) : result A :=
  match l with
  | [] => Raise IndexError
  | x :: _ => Ok x
  end.

(** [for term in until: s = s.split(term)[0]] *)
Definition truncate_at_stops (s : string) (until : list string) : result string :=
  foldlM (fun s term => pieces ← py_split s term; py_first pieces) s until.

(** The spec's words for one stop string: the prefix of the text before the
    first occurrence of the stop string, the text itself if there is none. *)
Fixpoint first_occurrence (t s : string) : option nat :=
  if String.prefix t s then Some O
  else match s with
       | EmptyString => None
       | String _ s' => S <$> first_occurrence t s'
       end.

Definition cut_before_first (s t : string) : string :=
  match first_occurrence t s with
  | Some i => String.substring 0 i s
  | None => s
  end.

(** Sequential truncation, each stop string on the result of the previous. *)
Definition sequential_truncation (s : string) (stops : list string) : string :=
  foldl cut_before_first s stops.

(** The [until] of a generation request: one string or a list of strings. *)
Inductive until_arg : Type :=
| UntilStr (s : string)
| UntilList (l : list string).

(** [if isinstance(until, str): until = [until]] *)
Definition until_list (until : until_arg) : list string :=
  match until with
  | UntilStr s => [s]
  | UntilList l => l
  end.

(** The key of greedy generation: the length of the context's tokens, then
    the context. *)
Definition _collate_greedy {R : Type} (self : HuggingfaceCausalLM R)
    (x : string * until_arg) : Z * string :=
  let toks := tok_encode self x.1 in
  (len toks, x.1).

(** The request objects of [loglikelihood]: [inps] is read, [resps] is
    written. [resps] is [None] as long as nothing was assigned; the value
    assigned is an answer of [_loglikelihood_tokens], or Python's [None]. *)
Module Request.
Record t (R : Type) : Type := mk {
  inps : string * string;
  resps : option (option (R * bool))
}.
Arguments mk {R} _ _.
Arguments inps {R} _.
Arguments resps {R} _.
End Request.

(** The argument of [loglikelihood_rolling]: a builtin list of one-string
    tuples, which has no instance attributes, or an object that iterates
    over such tuples and accepts the attribute [resps]. *)
Inductive rolling_requests (R : Type) : Type :=
| PlainList (items : list string)
| AttrSequence (items : list string) (resps : option (list R)).
Arguments PlainList {R} items.
Arguments AttrSequence {R} items resps.

Definition items_of {R : Type} (requests : rolling_requests R) : list string :=
  match requests with
  | PlainList items => items
  | AttrSequence items _ => items
  end.

(** [requests.resps = value] *)
Definition set_resps {R : Type} (requests : rolling_requests R) (value : list R)
    : result (rolling_requests R) :=
  match requests with
  | PlainList _ => Raise AttributeError
  | AttrSequence items _ => Ok (AttrSequence items (Some value))
  end.

(** ** SequenceEncoder: huggingface.py, lines 217-222 *)

(** [(context_enc + continuation_enc)[-(max_length + 1):][:-1]] *)
Definition model_input (max_length : Z) (context_enc continuation_enc : list Z)
    : list Z :=
  py_slice None (Some (-1))
    (py_slice (Some (- (max_length + 1))) None
       (context_enc ++ continuation_enc)).

(** The spec's words: keep at most [n] tokens, dropping the oldest ones. *)
Definition truncate_left (n : Z) (toks : list Z) : list Z :=
  drop (length toks - Z.to_nat n)%nat toks.

(** The spec's words: drop the final token. *)
Definition drop_final (toks : list Z) : list Z :=
  take (length toks - 1)%nat toks.

Definition encode_spec (max_context_length : Z)
    (context_tokens continuation_tokens : list Z) : list Z :=
  drop_final (truncate_left (max_context_length + 1)
                (context_tokens ++ continuation_tokens)).

Section Evaluator.
Context {R : Type} `{Numerics R}.
Variable self : HuggingfaceCausalLM R.

(** One turn of the loop of lines 204-244. *)
Definition add_row (b : batch) (x : encoded_request) : result batch :=
  let context_enc := context_of x in
  let continuation_enc := continuation_of x in
  _ ← py_assert (0 <? len context_enc);
  _ ← py_assert (0 <? len continuation_enc);
  _ ← py_assert (len continuation_enc <=? max_length self);
  let inp := model_input (max_length self) context_enc continuation_enc in
  let inplen := len inp in
  let cont := continuation_enc in
  let padding_length' :=
    match padding_length b with Some p => p | None => inplen end in
  zeros ← torch_zeros (padding_length' - inplen);
  let inp := inp ++ zeros in
  Ok {| inps := inps b ++ [inp];
        cont_toks_list := cont_toks_list b ++ [cont];
        inplens := inplens b ++ [inplen];
        padding_length := Some padding_length' |}.

(** Lines 194-244: the batch of a chunk. *)
Definition assemble (chunk : list encoded_request) : result batch :=
  foldlM add_row empty_batch chunk.

(** One turn of the loop of lines 251-277. *)
Definition score_row (res : list (R * bool))
    (row : encoded_request * (list (list R) * (list Z * (Z * list Z))))
    : result (list (R * bool)) :=
  let '(_, (logits, (_, (inplen, cont_toks)))) := row in
  answer ← extract logits inplen cont_toks;
  Ok (res ++ [answer]).

(** The body of the loop over the chunks, lines 194-277. *)
Definition process_chunk (res : list (R * bool)) (chunk : list encoded_request)
    : result (list (R * bool)) :=
  b ← assemble chunk;
  batched_inps ← torch_cat (inps b);
  out ← _model_call self batched_inps;
  let multi_logits := map (map log_softmax) out in
  foldlM score_row res
    (zip chunk
       (zip multi_logits
          (zip (inps b) (zip (inplens b) (cont_toks_list b))))).

Definition _loglikelihood_tokens (requests : list encoded_request)
    : result (list (option (R * bool))) :=
  let re_ord := Reorderer_init _collate requests in
  res ← foldlM process_chunk []
         (chunks (get_reordered re_ord) (batch_size self));
  Ok (get_original re_ord res).

(** *** [loglikelihood], lines 123-140 *)

(** Lines 126-135: the encoded request of a request object. *)
Definition encode_request (req : Request.t R) : encoded_request :=
  let '(context, continuation) := Request.inps req in
  let context_enc :=
    if String.eqb context EmptyString then [eot_token_id self]
    else tok_encode self context in
  let continuation_enc := tok_encode self continuation in
  (Some (context, continuation), context_enc, continuation_enc).

(** [req.inps] for the object at [l]; an object absent from the heap has no
    such attribute. *)
Definition read_request (heap : gmap positive (Request.t R)) (l : positive)
    : result (Request.t R) :=
  match heap !! l with
  | Some req => Ok req
  | None => Raise AttributeError
  end.

(** [req.resps = resp] for the object at [l]. *)
Definition write_resps (heap : gmap positive (Request.t R))
    (p : positive * option (R * bool)) : gmap positive (Request.t R) :=
  alter (fun req => Request.mk (Request.inps req) (Some p.2)) p.1 heap.

(** The requests are references into a heap of request objects; the
    function returns the heap it leaves and Python's [None]. *)
Definition loglikelihood (heap : gmap positive (Request.t R))
    (requests : list positive)
    : result (gmap positive (Request.t R) * unit) :=
  new_reqs ← foldlM (fun new_reqs l =>
                       req ← read_request heap l;
                       Ok (new_reqs ++ [encode_request req]))
                    [] requests;
  resps ← _loglikelihood_tokens new_reqs;
  Ok (foldl write_resps heap (zip requests resps), tt).

(** *** [loglikelihood_rolling], lines 142-172 *)

(** [lm_eval.utils.get_rolling_token_windows] and
    [lm_eval.utils.make_disjoint_window] are not among the sources; the
    functions below work for any such pair. *)
Variable get_rolling_token_windows :
  list Z -> Z -> Z -> Z -> result (list (list Z * list Z)).
Variable make_disjoint_window : list Z * list Z -> list Z * list Z.

(** [x[0]] for an answer [x]; Python's [None] cannot be indexed. *)
Definition answer_log_prob (x : option (R * bool)) : result R :=
  match x with
  | Some a => Ok a.1
  | None => Raise TypeError
  end.

(** [sum(l)] *)
Definition py_sum (l : list R) : R := foldl fadd fzero l.

(** Lines 146-158: the requests of a document's windows. *)
Definition rolling_token_windows (string : string)
    : result (list encoded_request) :=
  windows ← get_rolling_token_windows (tok_encode self string)
              (eot_token_id self) (max_length self) 1;
  Ok (map (fun x => (None, x.1, x.2)) (map make_disjoint_window windows)).

(** One turn of the loop of lines 145-170. *)
Definition rolling_step (loglikelihoods : list R) (string : string)
    : result (list R) :=
  windows ← rolling_token_windows string;
  string_nll ← _loglikelihood_tokens windows;
  string_nll ← mapM answer_log_prob string_nll;
  let string_nll := py_sum string_nll in
  Ok (loglikelihoods ++ [string_nll]).

Definition loglikelihood_rolling (requests : rolling_requests R)
    : result (rolling_requests R * unit) :=
  loglikelihoods ← foldlM rolling_step [] (items_of requests);
  requests' ← set_resps requests loglikelihoods;
  Ok (requests', tt).

(** *** [greedy_until], lines 281-317 *)

(** [(x,) = l] *)
Definition unpack_single (l : list Z) : result Z :=
  match l with
  | [x] => Ok x
  | _ => Raise ValueError
  end.

(** An entry of the partial cache: the context, the stop list and the text. *)
Definition hook_entry : Type := string * list string * string.

(** One turn of the loop of lines 293-315; the state is [res] and the
    entries handed to [cache_hook.add_partial]. *)
Definition greedy_step (st : list string * list hook_entry)
    (x : string * until_arg) : result (list string * list hook_entry) :=
  let '(res, hook) := st in
  let '(context, until) := x in
  let until := until_list until in
  first ← py_first until;
  primary_until ← unpack_single (tok_encode self first);
  let context_enc :=
    py_slice (Some (max_gen_toks - max_length self)) None
      (tok_encode self context) in
  cont ← _model_generate self [context_enc]
           (len context_enc + max_gen_toks) primary_until;
  cont0 ← py_first cont;
  let s := tok_decode self (py_slice (Some (len context_enc)) None cont0) in
  s ← truncate_at_stops s until;
  Ok (res ++ [s], hook ++ [(context, until, s)]).

(** The order in which [greedy_until] processes its requests. *)
Definition greedy_order (requests : list (string * until_arg))
    : list (string * until_arg) :=
  get_reordered (Reorderer_init (_collate_greedy self) requests).

Definition greedy_until (requests : list (string * until_arg))
    (hook : list hook_entry)
    : result (list (option string) * list hook_entry) :=
  let re_ord := Reorderer_init (_collate_greedy self) requests in
  st ← foldlM greedy_step ([], hook) (get_reordered re_ord);
  Ok (get_original re_ord st.1, st.2).
End Evaluator.

(** The order in which [_loglikelihood_tokens] processes its requests. *)
Definition likelihood_order (requests : list encoded_request)
    : list encoded_request :=
  get_reordered (Reorderer_init _collate requests).

(** ** Notions used to state the properties of a batch *)

(** The pre-padding input length of a request. *)
Definition input_length {R : Type} (self : HuggingfaceCausalLM R)
    (x : encoded_request) : Z :=
  len (model_input (max_length self) (context_of x) (continuation_of x)).

(** The number of tokens of a request, the length [_collate] negates. *)
Definition total_length (x : encoded_request) : Z :=
  len (context_of x ++ continuation_of x).

(** The row of a request in a batch of width [width]: its input, then the
    pad value 0 up to [width]. *)
Definition padded_row {R : Type} (self : HuggingfaceCausalLM R) (width : Z)
    (x : encoded_request) : list Z :=
  model_input (max_length self) (context_of x) (continuation_of x)
    ++ replicate (Z.to_nat (width - input_length self x)) 0.

(** The three assertions of lines 206-208. *)
Definition valid_request {R : Type} (self : HuggingfaceCausalLM R)
    (x : encoded_request) : Prop :=
  0 < len (context_of x)
  /\ 0 < len (continuation_of x)
  /\ len (continuation_of x) <= max_length self.

Global Instance valid_request_dec {R : Type} (self : HuggingfaceCausalLM R)
    (x : encoded_request) : Decision (valid_request self x).
Proof. unfold valid_request. apply _. Defined.

(** Descending order of the number of tokens. *)
Definition descending (chunk : list encoded_request) : Prop :=
  Sorted (fun x y => total_length y <= total_length x) chunk.

(** ** Notions used to state the properties of the Reorderer *)

(** The order of the keys of two entries, and the order of a stable sort:
    by key, and by original index among equal keys. *)
Definition key_le {A K : Type} `{PyOrd K} (fn : A -> K) (a b : nat * A) : Prop :=
  py_le (fn a.2) (fn b.2) = true.

Definition stable_le {A K : Type} `{PyOrd K} (fn : A -> K) (a b : nat * A)
    : Prop :=
  key_le fn a b /\ (key_le fn b a -> (a.1 < b.1)%nat).

(** A key order is total when any two keys are comparable. *)
Definition total_order (K : Type) `{PyOrd K} : Prop :=
  forall a b : K, py_le a b = true \/ py_le b a = true.

(** ** Notions used to state the independence from batching *)

(** The logits of a causal model on a row: the scores at position [p] are
    a function [next] of the tokens up to [p]. *)
Definition causal_logits {R : Type} (next : list Z -> list R) (row : list Z)
    : list (list R) :=
  (fun p => next (take (S p) row)) <$> seq 0 (length row).

(** The forward pass works row by row and is causal. *)
Definition causal_backend {R : Type} (self : HuggingfaceCausalLM R)
    (next : list Z -> list R) : Prop :=
  forall batch, _model_call self batch = Ok (causal_logits next <$> batch).

(** A request scored alone: the loop body on the chunk of that request. *)
Definition score_alone {R : Type} `{Numerics R} (self : HuggingfaceCausalLM R)
    (x : encoded_request) : result (list (R * bool)) :=
  process_chunk self [] [x].

(** ** The total of a rolling document *)

(** The request of a window, once made disjoint: no cache key, the context
    and the continuation of the disjoint window. *)
Definition window_request (make_disjoint_window : list Z * list Z -> list Z * list Z)
    (w : list Z * list Z) : encoded_request :=
  (None, (make_disjoint_window w).1, (make_disjoint_window w).2).

(** The total of a document: the sum, in the order of the windows, of the
    first components of the answers of its windows, the windows being those
    of the document's tokens for the prefix token [eot_token_id], the length
    [max_length] and a context of one token, each made disjoint. *)
Definition document_total {R : Type} `{Numerics R} (self : HuggingfaceCausalLM R)
    (get_rolling_token_windows :
       list Z -> Z -> Z -> Z -> result (list (list Z * list Z)))
    (make_disjoint_window : list Z * list Z -> list Z * list Z)
    (doc : string) (total : R) : Prop :=
  exists windows answers,
    get_rolling_token_windows (tok_encode self doc) (eot_token_id self)
      (max_length self) 1 = Ok windows
    /\ _loglikelihood_tokens self
         (window_request make_disjoint_window <$> windows)
       = Ok (Some <$> answers)
    /\ total = foldl fadd fzero answers.*1.

(** ** The log_probability of a window, in the words of the spec *)

(** The log-probabilities of a window (context, continuation) under a model
    whose scores after a prefix are [next prefix]: the input is the
    concatenation, truncated from the left to [max_length + 1] tokens,
    without its final token; the distribution at a position is the
    log-softmax of the scores after the tokens up to that position. *)
Definition window_log_probs {R : Type} `{Numerics R}
    (self : HuggingfaceCausalLM R) (next : list Z -> list R)
    (w : list Z * list Z) : list (list R) :=
  let inp := encode_spec (max_length self) w.1 w.2 in
  (fun p => log_softmax (next (take (S p) inp))) <$> seq 0 (length inp).

(** [log_probability]: the sum over [k] of the distribution of the [k]-th
    continuation token, taken at that token. *)
Definition window_log_probability {R : Type} `{Numerics R}
    (self : HuggingfaceCausalLM R) (next : list Z -> list R)
    (w : list Z * list Z) : R :=
  log_probability_spec (window_log_probs self next w)
    (len (encode_spec (max_length self) w.1 w.2)) w.2.

(** A window that can be scored: its context is not empty, its continuation
    has between one and [max_length] tokens, and every continuation token
    indexes the distribution it is read from. *)
Definition scorable_window {R : Type} `{Numerics R}
    (self : HuggingfaceCausalLM R) (next : list Z -> list R)
    (w : list Z * list Z) : Prop :=
  0 < len w.1
  /\ 0 < len w.2 <= max_length self
  /\ forall k tok, w.2 !! k = Some tok ->
       0 <= tok < len (distribution (window_log_probs self next w)
                         (len (encode_spec (max_length self) w.1 w.2)) w.2 k).

(** ** A small model, used in the examples *)

(** Integer scores: the sum is the integer sum, [log_softmax] the identity. *)
Global Instance Z_Numerics : Numerics Z :=
  {| fzero := 0; fadd := Z.add; fltb := Z.ltb; log_softmax := fun row => row |}.

(** A tokenizer with one token per character: its code modulo 4, the size
    of the vocabulary. *)
Fixpoint char_codes (s : string) : list Z :=
  match s with
  | EmptyString => []
  | String c s' => Z.of_N (Ascii.N_of_ascii c) mod 4 :: char_codes s'
  end.

(** The next-token scores of the toy model after a prefix, over a
    vocabulary of four tokens: they depend on the last token only. *)
Definition toy_scores (prefix : list Z) : list Z :=
  let t := default 0 (last prefix) in [0; t; 1; 2 - t].

Definition toy_lm : HuggingfaceCausalLM Z :=
  {| eot_token_id := 0;
     max_length := 4;
     batch_size := 2;
     tok_encode := char_codes;
     tok_decode := fun _ => EmptyString;
     _model_call := fun batch => Ok (causal_logits toy_scores <$> batch);
     _model_generate := fun context _ _ => Ok context |}.


(** A splitter into windows of two tokens: the context of a window is the
    token before it, then its first token again, so that the windows
    overlap until they are made disjoint. *)
Fixpoint toy_pairs (prev : Z) (token_list : list Z) : list (list Z * list Z) :=
  match token_list with
  | t0 :: t1 :: rest => ([prev; t0], [t0; t1]) :: toy_pairs t1 rest
  | [t0] => [([prev], [t0])]
  | [] => []
  end.

Definition toy_rolling_windows (token_list : list Z)
    (prefix_token max_seq_len context_len : Z)
    : result (list (list Z * list Z)) :=
  Ok (toy_pairs prefix_token token_list).

(** The context without the tokens it shares with the continuation. *)
Definition toy_disjoint (w : list Z * list Z) : list Z * list Z :=
  (take (length w.1 - (length w.2 - 1)) w.1, w.2).

(** The answer of the toy model for a request scored alone. *)
Definition toy_answer (x : encoded_request) : Z * bool :=
  match score_alone toy_lm x with
  | Ok [a] => a
  | _ => (0, false)
  end.

(** A heap of four request objects: three without an answer, one with. *)
Definition toy_heap : gmap positive (Request.t Z) :=
  <[3%positive := Request.mk ("d", "c") None]>
    (<[1%positive := Request.mk ("a", "bcd") None]>
       (<[2%positive := Request.mk ("", "ca") None]>
          (<[5%positive := Request.mk ("b", "b") (Some (Some (9, true)))]> ∅))).

(** ** Notions used to state the further properties *)

(** Lines 299-301: the tokens of the context handed to the generation. *)
Definition generation_context {R : Type} (self : HuggingfaceCausalLM R)
    (context : string) : list Z :=
  py_slice (Some (max_gen_toks - max_length self)) None
    (tok_encode self context).

(** The request of lines 126-135 for the two strings of a request object. *)
Definition encode_strings {R : Type} (self : HuggingfaceCausalLM R)
    (context continuation : string) : encoded_request :=
  encode_request self (Request.mk (context, continuation) None).

(** The stop string [t] does not occur in the text [s]. *)
Definition absent (t s : string) : Prop := first_occurrence t s = None.

(** The model returns one row of logits for every row of the batch. *)
Definition row_preserving {R : Type} (self : HuggingfaceCausalLM R) : Prop :=
  forall batch out, _model_call self batch = Ok out -> length out = length batch.

(** The toy model with a context of 260 tokens. *)
Definition toy_long_lm : HuggingfaceCausalLM Z :=
  {| eot_token_id := 0;
     max_length := 260;
     batch_size := 2;
     tok_encode := char_codes;
     tok_decode := fun _ => EmptyString;
     _model_call := fun batch => Ok (causal_logits toy_scores <$> batch);
     _model_generate := fun context _ _ => Ok context |}.

(** ** The argmax, in the words of the spec *)

(** The comparison of the scores is a strict weak order, as [<] is on the
    floating-point numbers that are not NaN. *)
Definition score_order (R : Type) `{Numerics R} : Prop :=
  (forall a : R, fltb a a = false)
  /\ (forall a b c : R, fltb a b = true -> fltb b c = true -> fltb a c = true)
  /\ (forall a b c : R, fltb a c = true -> fltb a b = true \/ fltb b c = true).

(** Token [i] is the argmax of the distribution [row]: no entry is above
    the entry of [i], and every entry before it is strictly below. *)
Definition first_maximum {R : Type} `{Numerics R} (row : list R) (i : Z)
    : Prop :=
  0 <= i
  /\ exists v,
       row !! Z.to_nat i = Some v
       /\ (forall y, y ∈ row -> fltb v y = false)
       /\ (forall j y, (j < Z.to_nat i)%nat -> row !! j = Some y ->
                       fltb y v = true).

(** * Properties *)

(** ** The error monad *)

Lemma bind_Ok {A B : Type} (m : result A) (k : A -> result B) (b : B) :
  m ≫= k = Ok b <-> exists a, m = Ok a /\ k a = Ok b.
Proof.
  destruct m as [a|e]; simpl.
  - split; [eauto | by intros (a' & [= <-] & ?)].
  - split; [done | by intros (a' & ? & ?)].
Qed.

Lemma py_assert_Ok (c : bool) (u : unit) : py_assert c = Ok u <-> c = true.
Proof. destruct c, u; simpl; split; done. Qed.

Lemma foldlM_app {A B : Type} (f : B -> A -> result B) (acc : B) (l1 l2 : list A) :
  foldlM f acc (l1 ++ l2) = foldlM f acc l1 ≫= fun acc' => foldlM f acc' l2.
Proof.
  revert acc. induction l1 as [|x l1 IH]; intros acc; simpl; [done|].
  destruct (f acc x) as [acc'|e]; simpl; [apply IH | done].
Qed.

Lemma foldlM_cons {A B : Type} (f : B -> A -> result B) (acc : B) (x : A)
    (l : list A) :
  foldlM f acc (x :: l) = f acc x ≫= fun acc' => foldlM f acc' l.
Proof. reflexivity. Qed.

Lemma bind_Ok_l {A B : Type} (a : A) (k : A -> result B) : Ok a ≫= k = k a.
Proof. reflexivity. Qed.

(** ** Slices *)

Lemma len_nonneg {A : Type} (l : list A) : 0 <= len l.
Proof. unfold len. lia. Qed.

Lemma len_app {A : Type} (l1 l2 : list A) : len (l1 ++ l2) = len l1 + len l2.
Proof. unfold len. rewrite length_app. lia. Qed.

Lemma py_slice_drop_last {A : Type} (l : list A) :
  py_slice None (Some (-1)) l = take (length l - 1)%nat l.
Proof.
  unfold py_slice, py_bound, len. simpl.
  destruct l as [|x l]; [done|].
  f_equal. rewrite length_cons. lia.
Qed.

Lemma py_slice_last_n {A : Type} (n : Z) (l : list A) :
  0 < n ->
  py_slice (Some (- n)) None l = drop (length l - Z.to_nat n)%nat l.
Proof.
  intros Hn. unfold py_slice, py_bound, len.
  replace (- n <? 0) with true by lia.
  rewrite take_ge.
  - f_equal. lia.
  - rewrite length_drop. lia.
Qed.

(** A slice between two bounds inside the sequence. *)
Lemma py_slice_inside {A : Type} (lo hi : Z) (l : list A) :
  0 <= lo -> lo <= hi ->
  py_slice (Some lo) (Some hi) l
    = take (Z.to_nat (hi - lo)) (drop (Z.to_nat lo) l).
Proof.
  intros Hlo Hhi. unfold py_slice, py_bound.
  replace (lo <? 0) with false by lia.
  replace (hi <? 0) with false by lia.
  pose proof (len_nonneg l) as Hl. unfold len in *.
  destruct (decide (hi <= Z.of_nat (length l))) as [Hin|Hout].
  - rewrite !Z.min_l by lia. done.
  - rewrite (Z.min_r hi) by lia.
    destruct (decide (lo <= Z.of_nat (length l))) as [Hlo'|Hlo'].
    + rewrite Z.min_l by lia.
      rewrite !take_ge; [done | rewrite length_drop; lia..].
    + rewrite Z.min_r by lia.
      rewrite !drop_ge by lia. by rewrite !take_nil.
Qed.

Lemma model_input_spec (max_length : Z) (context_enc continuation_enc : list Z) :
  0 <= max_length ->
  model_input max_length context_enc continuation_enc
    = encode_spec max_length context_enc continuation_enc.
Proof.
  intros Hm. unfold model_input, encode_spec, drop_final, truncate_left.
  by rewrite py_slice_drop_last, py_slice_last_n by lia.
Qed.

Lemma model_input_len (max_length : Z) (context_enc continuation_enc : list Z) :
  0 <= max_length ->
  len (model_input max_length context_enc continuation_enc)
    = Z.max 0 (Z.min (len (context_enc ++ continuation_enc)) (max_length + 1) - 1).
Proof.
  intros Hm. rewrite model_input_spec by done.
  unfold encode_spec, drop_final, truncate_left, len.
  rewrite length_take, length_drop. lia.
Qed.

(** C2: the model input is the concatenation, truncated from the left to at
    most [max_length + 1] tokens, without its final token; it is at most
    [max_length] long, and it is the whole concatenation without its last
    token when the concatenation fits. *)
Theorem model_input_truncates_then_drops (max_length : Z)
    (context_tokens continuation_tokens : list Z) :
  0 <= max_length ->
  let toks := context_tokens ++ continuation_tokens in
  model_input max_length context_tokens continuation_tokens
    = drop_final (truncate_left (max_length + 1) toks)
  /\ truncate_left (max_length + 1) toks `suffix_of` toks
  /\ len (truncate_left (max_length + 1) toks)
       = Z.min (len toks) (max_length + 1)
  /\ len (model_input max_length context_tokens continuation_tokens) <= max_length
  /\ (len toks <= max_length + 1 ->
      model_input max_length context_tokens continuation_tokens
        = take (length toks - 1)%nat toks).
Proof.
  intros Hm toks.
  pose proof (model_input_spec max_length context_tokens continuation_tokens Hm)
    as Heq.
  split; [exact Heq|].
  split; [apply suffix_drop|].
  split; [unfold truncate_left, len; rewrite length_drop; lia|].
  split.
  - rewrite model_input_len by done. fold toks.
    pose proof (len_nonneg toks). lia.
  - intros Hfit. rewrite Heq. unfold encode_spec, drop_final, truncate_left.
    fold toks. unfold len in Hfit.
    replace (length toks - Z.to_nat (max_length + 1))%nat with 0%nat by lia.
    done.
Qed.

(** ** Stop strings *)

Lemma append_cons (x : Ascii.ascii) (a b : string) :
  String x a +:+ b = String x (a +:+ b).
Proof. reflexivity. Qed.

Lemma append_assoc_str (a b c : string) : (a +:+ b) +:+ c = a +:+ (b +:+ c).
Proof.
  induction a as [|x a IH]; [done|]. by rewrite !append_cons, IH.
Qed.

Lemma append_nil_r (a : string) : a +:+ EmptyString = a.
Proof. induction a as [|x a IH]; [done|]. by rewrite append_cons, IH. Qed.

Lemma first_occurrence_nil (t : string) :
  t <> EmptyString -> first_occurrence t EmptyString = None.
Proof. by destruct t. Qed.

Lemma first_occurrence_cons (t : string) (c : Ascii.ascii) (s : string) :
  first_occurrence t (String c s)
    = if String.prefix t (String c s) then Some O
      else S <$> first_occurrence t s.
Proof. reflexivity. Qed.

Lemma cut_before_first_nil (t : string) :
  t <> EmptyString -> cut_before_first EmptyString t = EmptyString.
Proof. intros Ht. unfold cut_before_first. by rewrite first_occurrence_nil. Qed.

Lemma cut_before_first_cons (t : string) (c : Ascii.ascii) (s : string) :
  cut_before_first (String c s) t
    = if String.prefix t (String c s) then EmptyString
      else String c (cut_before_first s t).
Proof.
  unfold cut_before_first. rewrite first_occurrence_cons.
  destruct (String.prefix t (String c s)); [done|].
  by destruct (first_occurrence t s).
Qed.

Lemma split_from_head (sep cur s : string) :
  sep <> EmptyString ->
  exists rest,
    split_from sep O cur s = (cur +:+ cut_before_first s sep) :: rest.
Proof.
  intros Hsep. revert cur.
  induction s as [|c s IH]; intros cur.
  - exists []. rewrite cut_before_first_nil, append_nil_r by done. done.
  - rewrite cut_before_first_cons. cbn [split_from].
    destruct (String.prefix sep (String c s)) eqn:Hp.
    + eexists. by rewrite append_nil_r.
    + destruct (IH (cur +:+ String c EmptyString)) as [rest ->].
      exists rest. by rewrite append_assoc_str.
Qed.

Lemma truncate_at_stops_sequential (s : string) (until : list string) :
  Forall (fun t => t <> EmptyString) until ->
  truncate_at_stops s until = Ok (sequential_truncation s until).
Proof.
  intros Hne. revert s.
  induction Hne as [|t until Ht _ IH]; intros s; [done|].
  unfold truncate_at_stops, sequential_truncation in *. cbn [foldlM foldl].
  unfold py_split. destruct t as [|c t]; [done|].
  destruct (split_from_head (String c t) EmptyString s Ht) as [rest ->].
  simpl. apply IH.
Qed.

Lemma truncate_at_stops_Ok (s out : string) (until : list string) :
  truncate_at_stops s until = Ok out ->
  Forall (fun t => t <> EmptyString) until.
Proof.
  revert s. induction until as [|t until IH]; intros s Hout; [constructor|].
  unfold truncate_at_stops in *. cbn [foldlM] in Hout.
  apply bind_Ok in Hout as (s' & Hs' & Hout).
  constructor; [|by eapply IH].
  intros ->. done.
Qed.

(** C6: the text left by the loop over the stop strings is the sequential
    truncation of the generated text, each stop string cutting the result of
    the previous one at its first occurrence; the text that [greedy_until]
    records for a request is that truncation of the decoded text; and the
    stop list [<STOP2>; <STOP1>] leaves [abc] of [abc<STOP1>def<STOP2>ghi]. *)
Theorem stop_truncation_is_sequential {R : Type} (self : HuggingfaceCausalLM R)
    (s : string) (until : list string) :
  (Forall (fun t => t <> EmptyString) until ->
   truncate_at_stops s until = Ok (sequential_truncation s until))
  /\ (forall out, truncate_at_stops s until = Ok out ->
                  out = sequential_truncation s until)
  /\ (forall res hook context stops st,
        greedy_step self (res, hook) (context, stops) = Ok st ->
        exists raw,
          st.1 = res ++ [sequential_truncation raw (until_list stops)])
  /\ truncate_at_stops "abc<STOP1>def<STOP2>ghi" ["<STOP2>"; "<STOP1>"]
       = Ok "abc".
Proof.
  split; [apply truncate_at_stops_sequential|].
  split.
  { intros out Hout.
    pose proof (truncate_at_stops_Ok _ _ _ Hout) as Hne.
    rewrite truncate_at_stops_sequential in Hout by done. congruence. }
  split; [|reflexivity].
  intros res hook context stops st Hst. unfold greedy_step in Hst.
  apply bind_Ok in Hst as (first & _ & Hst).
  apply bind_Ok in Hst as (primary_until & _ & Hst).
  apply bind_Ok in Hst as (cont & _ & Hst).
  apply bind_Ok in Hst as (cont0 & _ & Hst).
  apply bind_Ok in Hst as (s' & Hs' & Hst).
  injection Hst as <-. eexists. simpl. f_equal. f_equal.
  pose proof (truncate_at_stops_Ok _ _ _ Hs') as Hne.
  rewrite truncate_at_stops_sequential in Hs' by done.
  injection Hs' as <-. reflexivity.
Qed.

(** ** The extractor *)

Lemma mapM_Ok_lookup {A B : Type} (f : A -> result B) (g : nat -> B) (l : list A) :
  (forall i x, l !! i = Some x -> f x = Ok (g i)) ->
  mapM f l = Ok (g <$> seq 0 (length l)).
Proof.
  revert g. induction l as [|x l IH]; intros g Hf; [done|].
  cbn [mapM]. rewrite (Hf 0%nat x eq_refl). simpl.
  rewrite (IH (g ∘ S)) by (intros i y Hi; apply (Hf (S i) y Hi)).
  simpl. by rewrite <- fmap_S_seq, <- list_fmap_compose.
Qed.

Lemma py_slice_lookup {A : Type} (lo hi : Z) (l : list A) (k : nat) :
  0 <= lo -> lo <= hi ->
  py_slice (Some lo) (Some hi) l !! k
    = if decide (k < Z.to_nat (hi - lo))%nat then l !! (Z.to_nat lo + k)%nat
      else None.
Proof.
  intros Hlo Hhi. rewrite py_slice_inside by done.
  case_decide.
  - by rewrite lookup_take_lt, lookup_drop.
  - apply lookup_take_ge. lia.
Qed.

(** Two rows that agree between the bounds have the same slice. *)
Lemma py_slice_agree {A : Type} (lo hi : Z) (l1 l2 : list A) :
  0 <= lo -> lo <= hi ->
  (forall i : nat, lo <= Z.of_nat i < hi -> l1 !! i = l2 !! i) ->
  py_slice (Some lo) (Some hi) l1 = py_slice (Some lo) (Some hi) l2.
Proof.
  intros Hlo Hhi Hagree. apply list_eq. intros k.
  rewrite !py_slice_lookup by done.
  case_decide; [|done]. apply Hagree. lia.
Qed.

Section ExtractFacts.
Context {R : Type} `{Numerics R}.

Lemma span_is_distributions (logits : list (list R)) (inplen : Z)
    (cont_toks : list Z) :
  len cont_toks <= inplen <= len logits ->
  py_slice (Some (inplen - len cont_toks)) (Some inplen) logits
    = distribution logits inplen cont_toks <$> seq 0 (length cont_toks).
Proof.
  intros [Hlo Hhi]. apply list_eq. intros k.
  unfold distribution, len in *.
  rewrite py_slice_lookup by lia.
  rewrite list_lookup_fmap.
  case_decide as Hk.
  - rewrite lookup_seq_lt by lia. simpl.
    destruct (lookup_lt_is_Some_2 logits
                (Z.to_nat (inplen - Z.of_nat (length cont_toks)) + k)%nat)
      as [row ->]; [lia | done].
  - by rewrite lookup_seq_ge by lia.
Qed.

Lemma eq_all_same_length (a b : list Z) :
  length a = length b ->
  eq_all a b = Ok (forallb (fun p => p.1 =? p.2) (zip a b)).
Proof.
  intros Hlen. unfold eq_all, len. rewrite Hlen, Z.eqb_refl. done.
Qed.

Lemma forallb_zip_lookup (a b : list Z) :
  length a = length b ->
  forallb (fun p => p.1 =? p.2) (zip a b) = true
  <-> forall k y, b !! k = Some y -> a !! k = Some y.
Proof.
  revert b. induction a as [|x a IH]; intros [|y b] Hlen; try done.
  simpl in *. rewrite andb_true_iff, IH by lia. split.
  - intros [Hxy Hrest] [|k] z; simpl; [|by apply Hrest].
    intros [= <-]. f_equal. by apply Z.eqb_eq.
  - intros Hall. split.
    + specialize (Hall 0%nat y eq_refl). simpl in Hall.
      injection Hall as ->. apply Z.eqb_refl.
    + intros k z Hz. by apply (Hall (S k)).
Qed.
End ExtractFacts.

Section ExtractTheorems.
Context {R : Type} `{Numerics R}.

Lemma tensor_at_lookup (row : list R) (i : Z) :
  0 <= i < len row ->
  tensor_at row i = Ok (default fzero (row !! Z.to_nat i)).
Proof.
  intros [Hlo Hhi]. unfold tensor_at, len in *.
  replace (i <? 0) with false by lia.
  destruct (lookup_lt_is_Some_2 row (Z.to_nat i)) as [v ->]; [lia | done].
Qed.

Lemma argmax_nonempty (row : list R) :
  0 < len row ->
  argmax row = Ok (match argmax row with Ok i => i | Raise _ => 0 end).
Proof. destruct row; [unfold len; simpl; lia | done]. Qed.

(** [argmax_from], started on the entries [pre] already seen with their
    first maximum [best] at [best_i], ends on the first maximum of the row. *)
Lemma argmax_from_first_maximum (pre row : list R) (best_i : nat) (best : R) :
  score_order R ->
  pre !! best_i = Some best ->
  (forall y, y ∈ pre -> fltb best y = false) ->
  (forall j y, (j < best_i)%nat -> pre !! j = Some y -> fltb y best = true) ->
  first_maximum (pre ++ row)
    (argmax_from (Z.of_nat best_i) best (len pre) row).
Proof.
  intros (Hirr & Htrans & Hcot). revert pre best_i best.
  induction row as [|x row IH]; intros pre best_i best Hbest Hmax Hfirst.
  - simpl. rewrite app_nil_r. split; [lia|]. exists best.
    rewrite Nat2Z.id. done.
  - cbn [argmax_from].
    replace (len pre + 1) with (len (pre ++ [x]))
      by (unfold len; rewrite length_app; simpl; lia).
    replace (pre ++ x :: row) with ((pre ++ [x]) ++ row)
      by (by rewrite <- app_assoc).
    destruct (fltb best x) eqn:Hbx.
    + unfold len at 1. apply IH.
      * by rewrite lookup_app_r, Nat.sub_diag by lia.
      * intros y [Hy| ->%list_elem_of_singleton]%elem_of_app; [|apply Hirr].
        destruct (fltb x y) eqn:Hxy; [|done].
        pose proof (Htrans best x y Hbx Hxy) as Hby.
        by rewrite (Hmax y Hy) in Hby.
      * intros j y Hj Hy. rewrite lookup_app_l in Hy by done.
        destruct (Hcot best y x Hbx) as [Hby|Hyx]; [|done].
        apply list_elem_of_lookup_2 in Hy. by rewrite Hmax in Hby.
    + apply IH.
      * by apply lookup_app_l_Some.
      * intros y [Hy| ->%list_elem_of_singleton]%elem_of_app; auto.
      * intros j y Hj Hy. apply (Hfirst j y Hj).
        rewrite lookup_app_l in Hy; [done|].
        apply lookup_lt_Some in Hbest. lia.
Qed.

Lemma argmax_first_maximum (row : list R) (i : Z) :
  score_order R -> argmax row = Ok i -> first_maximum row i.
Proof.
  intros Horder Hi. destruct row as [|x row]; [done|].
  simpl in Hi. injection Hi as <-.
  apply (argmax_from_first_maximum [x] row 0 x Horder).
  - done.
  - intros y ->%list_elem_of_singleton. by destruct Horder as (Hirr & _).
  - intros j y Hj. lia.
Qed.

Lemma first_maximum_unique (row : list R) (i j : Z) :
  first_maximum row i -> first_maximum row j -> i = j.
Proof.
  intros (Hi & v & Hv & Hvmax & Hvfirst) (Hj & w & Hw & Hwmax & Hwfirst).
  destruct (Z.lt_trichotomy i j) as [Hlt|[Heq|Hgt]]; [|done|].
  - assert (Hvw : fltb v w = true) by (apply (Hwfirst (Z.to_nat i)); [lia|done]).
    rewrite Hvmax in Hvw; [done|]. by eapply list_elem_of_lookup_2.
  - assert (Hwv : fltb w v = true) by (apply (Hvfirst (Z.to_nat j)); [lia|done]).
    rewrite Hwmax in Hwv; [done|]. by eapply list_elem_of_lookup_2.
Qed.

(** Under a strict weak order, [argmax] returns exactly the first maximum. *)
Lemma argmax_iff_first_maximum (row : list R) (i : Z) :
  score_order R -> argmax row = Ok i <-> first_maximum row i.
Proof.
  intros Horder. split; [by apply argmax_first_maximum|].
  intros Hi. destruct row as [|x row].
  { by destruct Hi as (_ & v & Hv & _). }
  assert (Hj : argmax (x :: row) = Ok (argmax_from 0 x 1 row)) by done.
  rewrite Hj. f_equal.
  eapply first_maximum_unique; [|exact Hi].
  by apply argmax_first_maximum.
Qed.

(** On a row whose span lies inside the row and whose continuation tokens
    index the vocabulary, the extractor returns the sum of the spec, and the
    flag that compares every position's [argmax] with the continuation
    token. *)
Lemma extract_Ok_log_probability (logits : list (list R))
    (inplen : Z) (cont_toks : list Z) :
  len cont_toks <= inplen <= len logits ->
  (forall k tok, cont_toks !! k = Some tok ->
     0 <= tok < len (distribution logits inplen cont_toks k)) ->
  exists is_greedy,
    extract logits inplen cont_toks
      = Ok (log_probability_spec logits inplen cont_toks, is_greedy)
    /\ (is_greedy = true <->
        forall k tok, cont_toks !! k = Some tok ->
          argmax (distribution logits inplen cont_toks k) = Ok tok).
Proof.
  intros Hspan Hvocab.
  pose proof (span_is_distributions logits inplen cont_toks Hspan) as Hslice.
  set (dist := distribution logits inplen cont_toks) in *.
  set (best := fun k => match argmax (dist k) with Ok i => i | Raise _ => 0 end).
  assert (Hbest : forall k tok, cont_toks !! k = Some tok ->
            argmax (dist k) = Ok (best k)).
  { intros k tok Hk. apply argmax_nonempty. specialize (Hvocab k tok Hk). lia. }
  assert (Hgreedy : mapM argmax (dist <$> seq 0 (length cont_toks))
                    = Ok (best <$> seq 0 (length cont_toks))).
  { rewrite (mapM_Ok_lookup argmax (fun i => best i)).
    - by rewrite length_fmap, length_seq.
    - intros i row Hi. apply list_lookup_fmap_Some in Hi as (k & -> & Hk).
      apply lookup_seq in Hk as [-> Hlt].
      destruct (lookup_lt_is_Some_2 cont_toks i Hlt) as [tok Htok]. eauto. }
  assert (Hgather : gather (dist <$> seq 0 (length cont_toks)) cont_toks
                    = Ok (token_log_prob logits inplen cont_toks
                            <$> seq 0 (length cont_toks))).
  { unfold gather, len. rewrite length_fmap, length_seq.
    replace (Z.of_nat (length cont_toks) <=? Z.of_nat (length cont_toks))
      with true by lia.
    rewrite (mapM_Ok_lookup _ (token_log_prob logits inplen cont_toks)).
    - by rewrite length_zip_with, length_fmap, length_seq, Nat.min_id.
    - intros i [row tok] Hi. apply lookup_zip_with_Some in Hi
        as (row' & tok' & [= <- <-] & Hrow & Htok).
      apply list_lookup_fmap_Some in Hrow as (k & -> & Hk).
      apply lookup_seq in Hk as [-> Hlt]. simpl.
      rewrite tensor_at_lookup by eauto.
      unfold token_log_prob. fold dist. by rewrite Htok. }
  exists (forallb (fun p => p.1 =? p.2)
            (zip (best <$> seq 0 (length cont_toks)) cont_toks)).
  split.
  - unfold extract. rewrite Hslice, Hgreedy. simpl.
    rewrite eq_all_same_length by (by rewrite length_fmap, length_seq).
    simpl. rewrite Hgather. simpl. unfold tensor_sum, log_probability_spec.
    by rewrite foldl_fmap.
  - rewrite forallb_zip_lookup by (by rewrite length_fmap, length_seq).
    split.
    + intros Hall k tok Hk. rewrite (Hbest k tok Hk). f_equal.
      specialize (Hall k tok Hk).
      apply list_lookup_fmap_Some in Hall as (k' & -> & Hk').
      by apply lookup_seq in Hk' as [-> _].
    + intros Hall k tok Hk. specialize (Hall k tok Hk).
      rewrite (Hbest k tok Hk) in Hall. injection Hall as <-.
      apply list_lookup_fmap_Some. exists k. split; [done|].
      apply lookup_seq. split; [done|]. by eapply lookup_lt_Some.
Qed.

(** C1: on a row whose span lies inside the row and whose continuation
    tokens index the vocabulary, the extractor reads the positions
    [inplen - contlen, inplen), returns the sum over [k] of the distribution
    at position [k] taken at [cont[k]], and a flag that is true exactly when
    every position's argmax is the continuation token: the token whose entry
    no entry of the distribution is above and every earlier entry is
    strictly below, when the scores are compared by a strict weak order. *)
Theorem extract_sums_span_and_flags_greedy (logits : list (list R))
    (inplen : Z) (cont_toks : list Z) :
  len cont_toks <= inplen <= len logits ->
  (forall k tok, cont_toks !! k = Some tok ->
     0 <= tok < len (distribution logits inplen cont_toks k)) ->
  py_slice (Some (inplen - len cont_toks)) (Some inplen) logits
    = distribution logits inplen cont_toks <$> seq 0 (length cont_toks)
  /\ exists is_greedy,
       extract logits inplen cont_toks
         = Ok (log_probability_spec logits inplen cont_toks, is_greedy)
       /\ (is_greedy = true <->
           forall k tok, cont_toks !! k = Some tok ->
             argmax (distribution logits inplen cont_toks k) = Ok tok)
       /\ (score_order R ->
           (is_greedy = true <->
            forall k tok, cont_toks !! k = Some tok ->
              first_maximum (distribution logits inplen cont_toks k) tok)).
Proof.
  intros Hspan Hvocab.
  split; [by apply span_is_distributions|].
  destruct (extract_Ok_log_probability logits inplen cont_toks Hspan Hvocab)
    as (is_greedy & Hextract & Hflag).
  exists is_greedy. split; [exact Hextract|]. split; [exact Hflag|].
  intros Horder. rewrite Hflag.
  split; intros Hall k tok Hk; specialize (Hall k tok Hk);
    by apply argmax_iff_first_maximum.
Qed.

(** The answer of the extractor is a function of the logits at the
    positions [inplen - contlen, inplen) alone. *)
Lemma extract_agree (logits1 logits2 : list (list R))
    (inplen : Z) (cont_toks : list Z) :
  len cont_toks <= inplen ->
  (forall i : nat, inplen - len cont_toks <= Z.of_nat i < inplen ->
     logits1 !! i = logits2 !! i) ->
  extract logits1 inplen cont_toks = extract logits2 inplen cont_toks.
Proof.
  intros Hlen Hagree. unfold extract.
  pose proof (len_nonneg cont_toks).
  by rewrite (py_slice_agree _ _ logits1 logits2) by (done || lia).
Qed.
End ExtractTheorems.

(** ** Assembling a batch *)

Section BatchFacts.
Context {R : Type} (self : HuggingfaceCausalLM R).

Lemma torch_zeros_Ok (n : Z) (zeros : list Z) :
  torch_zeros n = Ok zeros <-> 0 <= n /\ zeros = replicate (Z.to_nat n) 0.
Proof.
  unfold torch_zeros. destruct (Z.ltb_spec n 0).
  - split; [done | lia].
  - split; [by intros [= <-] | by intros [_ ->]].
Qed.

(** A turn of the loop succeeds exactly when the three assertions hold and
    the row is not longer than the padding length. *)
Lemma add_row_Ok (b b' : batch) (x : encoded_request) :
  add_row self b x = Ok b' <->
  valid_request self x
  /\ (let width := default (input_length self x) (padding_length b) in
      input_length self x <= width
      /\ b' = {| inps := inps b ++ [padded_row self width x];
                 cont_toks_list := cont_toks_list b ++ [continuation_of x];
                 inplens := inplens b ++ [input_length self x];
                 padding_length := Some width |}).
Proof.
  unfold add_row, valid_request, padded_row.
  fold (input_length self x).
  replace (match padding_length b with
           | Some p => p
           | None => input_length self x
           end)
    with (default (input_length self x) (padding_length b))
    by (by destruct (padding_length b)).
  set (width := default (input_length self x) (padding_length b)).
  split.
  - intros Hrow.
    apply bind_Ok in Hrow as (u1 & H1%py_assert_Ok & Hrow).
    apply bind_Ok in Hrow as (u2 & H2%py_assert_Ok & Hrow).
    apply bind_Ok in Hrow as (u3 & H3%py_assert_Ok & Hrow).
    apply bind_Ok in Hrow as (zeros & [Hz ->]%torch_zeros_Ok & Hrow).
    injection Hrow as <-.
    repeat split; lia || done.
  - intros ((H1 & H2 & H3) & Hw & ->).
    replace (0 <? len (context_of x)) with true by lia.
    replace (0 <? len (continuation_of x)) with true by lia.
    replace (len (continuation_of x) <=? max_length self) with true by lia.
    simpl. unfold torch_zeros.
    replace (width - input_length self x <? 0) with false by lia.
    done.
Qed.

(** The loop, once the padding length is fixed to [width]. *)
Lemma assemble_rest (chunk : list encoded_request) (b b' : batch) (width : Z) :
  padding_length b = Some width ->
  foldlM (add_row self) b chunk = Ok b' <->
  Forall (fun x => valid_request self x /\ input_length self x <= width) chunk
  /\ b' = {| inps := inps b ++ (padded_row self width <$> chunk);
             cont_toks_list := cont_toks_list b ++ (continuation_of <$> chunk);
             inplens := inplens b ++ (input_length self <$> chunk);
             padding_length := Some width |}.
Proof.
  revert b. induction chunk as [|x chunk IH]; intros b Hpad.
  - simpl. rewrite !app_nil_r. split.
    + intros [= <-]. split; [constructor|]. destruct b; simpl in *; congruence.
    + intros [_ ->]. destruct b; simpl in *; congruence.
  - cbn [foldlM]. rewrite bind_Ok. split.
    + intros (b1 & Hb1 & Hrest). apply add_row_Ok in Hb1 as (Hv & Hb1).
      rewrite Hpad in Hb1. simpl in Hb1. destruct Hb1 as [Hw ->].
      apply IH in Hrest as [Hall ->]; [|done]. simpl.
      split; [by constructor|]. by rewrite <- !app_assoc.
    + intros [Hall ->]. apply Forall_cons in Hall as [[Hv Hw] Hall].
      eexists. split.
      * apply add_row_Ok. split; [done|]. rewrite Hpad. simpl. done.
      * apply IH; [done|]. split; [done|]. simpl. by rewrite <- !app_assoc.
Qed.

(** The batch of a chunk: the width is the input length of the first row. *)
Lemma assemble_cons (x : encoded_request) (chunk : list encoded_request)
    (b : batch) :
  assemble self (x :: chunk) = Ok b <->
  Forall (fun y => valid_request self y
                   /\ input_length self y <= input_length self x) (x :: chunk)
  /\ b = {| inps := padded_row self (input_length self x) <$> x :: chunk;
            cont_toks_list := continuation_of <$> x :: chunk;
            inplens := input_length self <$> x :: chunk;
            padding_length := Some (input_length self x) |}.
Proof.
  unfold assemble. cbn [foldlM]. rewrite bind_Ok. split.
  - intros (b1 & Hb1 & Hrest). apply add_row_Ok in Hb1 as (Hv & Hb1).
    simpl in Hb1. destruct Hb1 as [Hw ->].
    apply assemble_rest with (width := input_length self x) in Hrest
      as [Hall ->]; [|done].
    split; [by constructor|]. done.
  - intros [Hall ->]. apply Forall_cons in Hall as [[Hv Hw] Hall].
    eexists. split.
    + apply add_row_Ok. split; [done|]. simpl. done.
    + apply assemble_rest with (width := input_length self x); [done|].
      split; [done|]. done.
Qed.

Lemma padded_row_len (width : Z) (x : encoded_request) :
  input_length self x <= width -> len (padded_row self width x) = width.
Proof.
  intros Hw. unfold padded_row. rewrite len_app.
  fold (input_length self x). unfold len at 1.
  rewrite length_replicate. lia.
Qed.

Lemma input_length_mono (x y : encoded_request) :
  0 <= max_length self ->
  total_length y <= total_length x ->
  input_length self y <= input_length self x.
Proof.
  intros Hm Hxy. unfold input_length, total_length in *.
  rewrite !model_input_len by done. lia.
Qed.

Lemma descending_head (x : encoded_request) (chunk : list encoded_request) :
  descending (x :: chunk) ->
  Forall (fun y => total_length y <= total_length x) (x :: chunk).
Proof.
  intros Hsorted. constructor; [done|].
  apply Sorted_StronglySorted in Hsorted.
  - by apply StronglySorted_inv in Hsorted as [_ Hall].
  - intros a b c Hab Hbc. lia.
Qed.

Lemma torch_cat_same_width (rows : list (list Z)) (width : Z) :
  rows <> [] -> Forall (fun row => len row = width) rows ->
  torch_cat rows = Ok rows.
Proof.
  intros Hne Hall. destruct rows as [|r rows]; [done|]. unfold torch_cat.
  replace (forallb (fun r' => len r' =? len r) (r :: rows)) with true; [done|].
  symmetry. apply forallb_forall. intros r' Hin.
  apply Forall_cons in Hall as Hr. destruct Hr as [-> _].
  rewrite Forall_forall in Hall. apply list_elem_of_In in Hin.
  rewrite (Hall r' Hin). apply Z.eqb_refl.
Qed.
End BatchFacts.

(** The batch of a chunk in descending order whose requests pass the
    assertions. *)
Lemma assemble_descending {R : Type}
    (self : HuggingfaceCausalLM R) (chunk : list encoded_request) :
  chunk <> [] ->
  Forall (valid_request self) chunk ->
  descending chunk ->
  exists b width,
    assemble self chunk = Ok b
    /\ padding_length b = Some width
    /\ head (input_length self <$> chunk) = Some width
    /\ inplens b = input_length self <$> chunk
    /\ inps b = padded_row self width <$> chunk
    /\ cont_toks_list b = continuation_of <$> chunk
    /\ Forall (fun row => len row = width) (inps b)
    /\ width ∈ inplens b
    /\ Forall (fun n => n <= width) (inplens b)
    /\ torch_cat (inps b) = Ok (inps b).
Proof.
  intros Hne Hvalid Hdesc. destruct chunk as [|x chunk]; [done|].
  assert (Hm : 0 <= max_length self).
  { apply Forall_cons in Hvalid as [(_ & ? & ?) _]. lia. }
  assert (Hle : Forall (fun y => input_length self y <= input_length self x)
                  (x :: chunk)).
  { eapply Forall_impl; [by apply descending_head|].
    intros y Hy. by apply input_length_mono. }
  assert (Hall : Forall (fun y => valid_request self y
                   /\ input_length self y <= input_length self x) (x :: chunk)).
  { apply Forall_and. done. }
  eexists _, (input_length self x). split.
  { apply assemble_cons. split; [exact Hall | reflexivity]. }
  cbn [padding_length inplens inps cont_toks_list].
  assert (Hwidth : Forall (fun row => len row = input_length self x)
                     (padded_row self (input_length self x) <$> x :: chunk)).
  { apply Forall_fmap. eapply Forall_impl; [exact Hle|].
    intros y Hy. by apply padded_row_len. }
  repeat split; try done.
  - rewrite fmap_cons. apply list_elem_of_here.
  - by apply Forall_fmap.
  - by eapply torch_cat_same_width.
Qed.

(** Whenever a chunk is turned into a batch, the batch has the width of
    its first row, and no row is longer. *)
Lemma assemble_Ok_shape {R : Type} (self : HuggingfaceCausalLM R)
    (chunk : list encoded_request) (b : batch) :
  chunk <> [] -> assemble self chunk = Ok b ->
  exists width,
    padding_length b = Some width
    /\ head (input_length self <$> chunk) = Some width
    /\ inplens b = input_length self <$> chunk
    /\ inps b = padded_row self width <$> chunk
    /\ Forall (fun row => len row = width) (inps b)
    /\ width ∈ inplens b
    /\ Forall (fun n => n <= width) (inplens b).
Proof.
  intros Hne Hb. destruct chunk as [|x chunk]; [done|].
  apply assemble_cons in Hb as [Hall ->]. cbn [padding_length inplens inps].
  apply Forall_and in Hall as [_ Hle].
  exists (input_length self x). repeat split; try done.
  - apply Forall_fmap. eapply Forall_impl; [exact Hle|].
    intros y Hy. by apply padded_row_len.
  - rewrite fmap_cons. apply list_elem_of_here.
  - by apply Forall_fmap.
Qed.

(** C4: a chunk in descending order of length whose requests pass the
    assertions is turned into a batch whose padding length is the input
    length of the first row; every row is the request's input followed by
    the pad value 0 up to that length, so all rows have that width; and the
    padding length is the maximum of the input lengths. Every batch that a
    chunk is turned into has this shape. *)
Theorem batch_padded_to_first_and_longest_row {R : Type}
    (self : HuggingfaceCausalLM R) (chunk : list encoded_request) :
  chunk <> [] ->
  (Forall (valid_request self) chunk ->
   descending chunk ->
   exists b, assemble self chunk = Ok b /\ torch_cat (inps b) = Ok (inps b))
  /\ (forall b,
        assemble self chunk = Ok b ->
        exists width,
          padding_length b = Some width
          /\ head (input_length self <$> chunk) = Some width
          /\ inplens b = input_length self <$> chunk
          /\ inps b = padded_row self width <$> chunk
          /\ Forall (fun row => len row = width) (inps b)
          /\ width ∈ inplens b
          /\ Forall (fun n => n <= width) (inplens b)).
Proof.
  intros Hne. split.
  - intros Hvalid Hdesc.
    destruct (assemble_descending self chunk Hne Hvalid Hdesc)
      as (b & width & Hb & Hrest).
    exists b. split; [done | tauto].
  - intros b Hb. by apply assemble_Ok_shape.
Qed.

(** ** The Reorderer *)

Lemma enumerate_from_lookup {A : Type} (i k : nat) (l : list A) :
  enumerate_from i l !! k = (fun x => ((i + k)%nat, x)) <$> l !! k.
Proof.
  revert i k. induction l as [|x l IH]; intros i [|k]; simpl; try done.
  - by rewrite Nat.add_0_r.
  - rewrite IH. by replace (S i + k)%nat with (i + S k)%nat by lia.
Qed.

Lemma enumerate_from_fst {A : Type} (i : nat) (l : list A) :
  (enumerate_from i l).*1 = seq i (length l).
Proof.
  revert i. induction l as [|x l IH]; intros i; simpl; [done|].
  by rewrite IH.
Qed.

Lemma enumerate_from_snd {A : Type} (i : nat) (l : list A) :
  (enumerate_from i l).*2 = l.
Proof.
  revert i. induction l as [|x l IH]; intros i; simpl; [done|].
  by rewrite IH.
Qed.

Lemma elem_of_enumerate_from {A : Type} (i j : nat) (x : A) (l : list A) :
  (j, x) ∈ enumerate_from i l <-> (i <= j)%nat /\ l !! (j - i)%nat = Some x.
Proof.
  rewrite list_elem_of_lookup. setoid_rewrite enumerate_from_lookup. split.
  - intros (k & Hk). apply fmap_Some in Hk as (y & Hy & [= -> ->]).
    split; [lia|]. by replace (i + k - i)%nat with k by lia.
  - intros [Hle Hx]. exists (j - i)%nat. rewrite Hx. simpl.
    by replace (i + (j - i))%nat with j by lia.
Qed.

Section ReordererFacts.
Context {A K : Type} `{PyOrd K}.
Variable fn : A -> K.
Hypothesis fn_total : total_order K.

Lemma insert_by_perm (x : nat * A) (l : list (nat * A)) :
  insert_by fn x l ≡ₚ x :: l.
Proof.
  induction l as [|y l IH]; simpl; [done|].
  destruct (py_le (fn x.2) (fn y.2)); [done|].
  rewrite IH. apply Permutation_swap.
Qed.

Lemma stable_sort_perm (l : list (nat * A)) : stable_sort fn l ≡ₚ l.
Proof.
  induction l as [|x l IH]; simpl; [done|].
  by rewrite insert_by_perm, IH.
Qed.

Lemma insert_by_sorted (x : nat * A) (l : list (nat * A)) :
  Sorted (stable_le fn) l ->
  Forall (fun y => (x.1 < y.1)%nat) l ->
  Sorted (stable_le fn) (insert_by fn x l).
Proof.
  induction l as [|y l IH]; intros Hsorted Hlt; simpl.
  { repeat constructor. }
  apply Sorted_inv in Hsorted as [Hsorted Hhd].
  apply Forall_cons in Hlt as [Hxy Hlt].
  destruct (py_le (fn x.2) (fn y.2)) eqn:Hle.
  - constructor; [by constructor|]. constructor. by split.
  - constructor; [by apply IH|].
    assert (Hyx : stable_le fn y x).
    { split.
      - destruct (fn_total (fn x.2) (fn y.2)); [congruence | done].
      - unfold key_le. congruence. }
    destruct l as [|z l]; simpl; [by constructor|].
    destruct (py_le (fn x.2) (fn z.2)); constructor; [done|].
    by apply HdRel_inv in Hhd.
Qed.

Lemma stable_sort_enumerate_sorted (i : nat) (l : list A) :
  Sorted (stable_le fn) (stable_sort fn (enumerate_from i l)).
Proof.
  revert i. induction l as [|x l IH]; intros i; simpl; [constructor|].
  apply insert_by_sorted; [apply IH|].
  apply Forall_forall. intros [j y] Hin. simpl.
  rewrite stable_sort_perm in Hin.
  apply elem_of_enumerate_from in Hin. lia.
Qed.

(** The reordered items are a permutation of the requests, sorted by key. *)
Lemma get_reordered_perm (arr : list A) :
  get_reordered (Reorderer_init fn arr) ≡ₚ arr.
Proof.
  unfold get_reordered, Reorderer_init. simpl.
  by rewrite stable_sort_perm, enumerate_from_snd.
Qed.

Lemma get_reordered_sorted (arr : list A) :
  Sorted (fun x y => py_le (fn x) (fn y) = true)
         (get_reordered (Reorderer_init fn arr)).
Proof.
  unfold get_reordered, Reorderer_init. simpl.
  eapply Sorted_fmap; [|apply stable_sort_enumerate_sorted].
  by intros a b [Hle _].
Qed.
End ReordererFacts.

(** The restoration of the original order *)

Section Scatter.
Context {A V : Type}.

Lemma scatter_zip_fmap (g : A -> V) (l : list (nat * A)) (init : list (option V)) :
  foldl (fun res '((ind, _), v) => <[ind := Some v]> res) init
        (zip l (g <$> l.*2))
  = foldl (fun res p => <[p.1 := Some (g p.2)]> res) init l.
Proof.
  revert init. induction l as [|[i x] l IH]; intros init; simpl; [done|].
  apply IH.
Qed.

Lemma scatter_length (g : A -> V) (l : list (nat * A)) (init : list (option V)) :
  length (foldl (fun res p => <[p.1 := Some (g p.2)]> res) init l)
  = length init.
Proof.
  revert init. induction l as [|[i x] l IH]; intros init; simpl; [done|].
  by rewrite IH, length_insert.
Qed.

Lemma scatter_lookup_other (g : A -> V) (l : list (nat * A))
    (init : list (option V)) (i : nat) :
  i ∉ l.*1 ->
  foldl (fun res p => <[p.1 := Some (g p.2)]> res) init l !! i = init !! i.
Proof.
  revert init. induction l as [|[j y] l IH]; intros init Hi; simpl; [done|].
  simpl in Hi. apply not_elem_of_cons in Hi as [Hne Hi].
  rewrite IH by done. by apply list_lookup_insert_ne.
Qed.

Lemma scatter_lookup (g : A -> V) (l : list (nat * A))
    (init : list (option V)) (i : nat) (x : A) :
  NoDup l.*1 -> (i, x) ∈ l -> (i < length init)%nat ->
  foldl (fun res p => <[p.1 := Some (g p.2)]> res) init l !! i
  = Some (Some (g x)).
Proof.
  revert init. induction l as [|[j y] l IH]; intros init Hnd Hin Hlt.
  { by apply elem_of_nil in Hin. }
  simpl in *. apply NoDup_cons in Hnd as [Hj Hnd].
  apply elem_of_cons in Hin as [[= -> ->]|Hin].
  - rewrite scatter_lookup_other by done. by apply list_lookup_insert_eq.
  - apply IH; [done..|]. by rewrite length_insert.
Qed.
End Scatter.

(** [get_original], given the results of the reordered items in their
    order, gives the results of the items in the original order. *)
Lemma get_original_fmap {A K V : Type} `{PyOrd K} (fn : A -> K) (g : A -> V)
    (arr : list A) :
  get_original (Reorderer_init fn arr)
    (g <$> get_reordered (Reorderer_init fn arr))
  = Some ∘ g <$> arr.
Proof.
  unfold get_original, get_reordered, Reorderer_init. simpl.
  rewrite scatter_zip_fmap.
  set (sorted := stable_sort fn (enumerate_from 0 arr)).
  assert (Hperm : sorted ≡ₚ enumerate_from 0 arr) by apply stable_sort_perm.
  apply list_eq. intros i. rewrite list_lookup_fmap.
  destruct (arr !! i) as [x|] eqn:Hi; simpl.
  - apply scatter_lookup.
    + rewrite Hperm, enumerate_from_fst. apply NoDup_seq.
    + rewrite Hperm. apply elem_of_enumerate_from.
      split; [lia|]. by rewrite Nat.sub_0_r.
    + rewrite length_replicate. by eapply lookup_lt_Some.
  - apply lookup_ge_None. rewrite scatter_length, length_replicate.
    by apply lookup_ge_None.
Qed.

(** ** The key orders are total *)

Lemma Z_total : total_order Z.
Proof. intros a b. unfold py_le, Z_PyOrd. lia. Qed.

Lemma string_total : total_order string.
Proof. intros a b. apply String.leb_total. Qed.

Lemma tuple_total {A : Type} `{PyOrd A} : total_order A -> total_order (list A).
Proof.
  intros Htotal l1. unfold py_le, tuple_PyOrd.
  induction l1 as [|a l1 IH]; intros [|b l2]; simpl; auto.
  destruct (Htotal a b) as [Hab|Hba].
  - rewrite Hab. destruct (py_le b a); [apply IH | auto].
  - rewrite Hba. destruct (py_le a b); [apply IH | auto].
Qed.

Lemma pair_total {A B : Type} `{PyOrd A} `{PyOrd B} :
  total_order A -> total_order B -> total_order (A * B).
Proof.
  intros HA HB [a1 b1] [a2 b2]. unfold py_le, pair_PyOrd. simpl.
  destruct (HA a1 a2) as [Hab|Hba].
  - rewrite Hab. destruct (py_le a2 a1); [apply HB | auto].
  - rewrite Hba. destruct (py_le a1 a2); [apply HB | auto].
Qed.

Lemma pair_le_fst {A B : Type} `{PyOrd A} `{PyOrd B} (p q : A * B) :
  py_le p q = true -> py_le p.1 q.1 = true.
Proof.
  unfold py_le at 1, pair_PyOrd. by destruct (py_le p.1 q.1).
Qed.

(** ** The processing orders *)

Lemma collate_total : total_order (Z * list Z).
Proof. apply pair_total; [apply Z_total | apply tuple_total, Z_total]. Qed.

Lemma collate_greedy_total : total_order (Z * string).
Proof. apply pair_total; [apply Z_total | apply string_total]. Qed.

Lemma Sorted_impl {A : Type} (r1 r2 : relation A) (l : list A) :
  (forall x y, r1 x y -> r2 x y) -> Sorted r1 l -> Sorted r2 l.
Proof.
  intros Himpl. induction 1 as [|x l Hs IH Hhd]; constructor; [done|].
  destruct Hhd; constructor; auto.
Qed.

Lemma likelihood_order_descending (requests : list encoded_request) :
  descending (likelihood_order requests).
Proof.
  unfold descending, likelihood_order.
  eapply Sorted_impl; [|apply get_reordered_sorted, collate_total].
  intros x y Hle%pair_le_fst. unfold _collate, total_length in *. simpl in Hle.
  unfold py_le, Z_PyOrd in Hle. lia.
Qed.

(** The partial cache records the requests in the order of the loop. *)
Lemma greedy_loop_hook {R : Type} (self : HuggingfaceCausalLM R)
    (l : list (string * until_arg))
    (st st' : list string * list hook_entry) :
  foldlM (greedy_step self) st l = Ok st' ->
  exists entries, st'.2 = st.2 ++ entries /\ entries.*1.*1 = l.*1.
Proof.
  revert st. induction l as [|[context stops] l IH]; intros [res hook];
    cbn [foldlM].
  - intros [= <-]. exists []. by rewrite app_nil_r.
  - intros Hloop. apply bind_Ok in Hloop as (st1 & Hstep & Hrest).
    unfold greedy_step in Hstep.
    apply bind_Ok in Hstep as (first & _ & Hstep).
    apply bind_Ok in Hstep as (primary_until & _ & Hstep).
    apply bind_Ok in Hstep as (cont & _ & Hstep).
    apply bind_Ok in Hstep as (cont0 & _ & Hstep).
    apply bind_Ok in Hstep as (s & _ & Hstep).
    injection Hstep as <-.
    apply IH in Hrest as (entries & -> & Hentries). simpl.
    exists ((context, until_list stops, s) :: entries).
    split; [by rewrite <- app_assoc|]. rewrite !fmap_cons. simpl.
    by rewrite Hentries.
Qed.

(** C7, as amended: likelihood scoring processes its requests sorted by the
    key [(-length, tokens)], entries of equal key in their original order,
    hence in descending order of the number of tokens; greedy generation
    processes its requests sorted by the key [(length, context)], hence in
    ascending order of the number of context tokens, and records them in
    the partial cache in that order. Both orders are permutations of the
    requests. *)
Theorem processing_orders {R : Type} (self : HuggingfaceCausalLM R)
    (requests : list encoded_request) (generations : list (string * until_arg)) :
  likelihood_order requests ≡ₚ requests
  /\ Sorted (fun x y => py_le (_collate x) (_collate y) = true)
            (likelihood_order requests)
  /\ Sorted (stable_le _collate) (ro_arr (Reorderer_init _collate requests))
  /\ Sorted (fun x y => total_length y <= total_length x)
            (likelihood_order requests)
  /\ greedy_order self generations ≡ₚ generations
  /\ Sorted (fun x y => py_le (_collate_greedy self x) (_collate_greedy self y)
                        = true)
            (greedy_order self generations)
  /\ Sorted (stable_le (_collate_greedy self))
            (ro_arr (Reorderer_init (_collate_greedy self) generations))
  /\ Sorted (fun x y => len (tok_encode self x.1) <= len (tok_encode self y.1))
            (greedy_order self generations)
  /\ (forall hook r,
        greedy_until self generations hook = Ok r ->
        exists entries,
          r.2 = hook ++ entries
          /\ entries.*1.*1 = (greedy_order self generations).*1).
Proof.
  repeat split.
  - apply get_reordered_perm.
  - apply get_reordered_sorted, collate_total.
  - apply stable_sort_enumerate_sorted, collate_total.
  - apply likelihood_order_descending.
  - apply get_reordered_perm.
  - apply get_reordered_sorted, collate_greedy_total.
  - apply stable_sort_enumerate_sorted, collate_greedy_total.
  - eapply Sorted_impl; [|apply get_reordered_sorted, collate_greedy_total].
    intros x y Hle%pair_le_fst. unfold _collate_greedy in Hle. simpl in Hle.
    unfold py_le, Z_PyOrd in Hle. lia.
  - intros hook r Hrun. unfold greedy_until in Hrun.
    apply bind_Ok in Hrun as (st & Hloop & Hrun). injection Hrun as <-.
    apply greedy_loop_hook in Hloop as (entries & Hhook & Hentries).
    by exists entries.
Qed.

(** The claim of C7 fails for greedy generation: the two contexts [ab] and
    [a] are processed shortest first. *)
Lemma greedy_order_not_descending :
  greedy_order toy_lm [("ab", UntilStr "."); ("a", UntilStr ".")]
    = [("a", UntilStr "."); ("ab", UntilStr ".")]
  /\ ~ Sorted (fun x y => len (tok_encode toy_lm y.1) <= len (tok_encode toy_lm x.1))
        (greedy_order toy_lm [("ab", UntilStr "."); ("a", UntilStr ".")]).
Proof.
  split; [reflexivity|].
  intros Hsorted. apply Sorted_inv in Hsorted as [_ Hhd].
  apply HdRel_inv in Hhd. vm_compute in Hhd. by apply Hhd.
Qed.

(** ** Scoring a chunk *)

Lemma zip_fmap_fmap {A B C : Type} (f : A -> B) (g : A -> C) (l : list A) :
  zip (f <$> l) (g <$> l) = (fun x => (f x, g x)) <$> l.
Proof. induction l as [|x l IH]; csimpl; [done | by rewrite IH]. Qed.

Lemma zip_fmap_r_diag {A C : Type} (g : A -> C) (l : list A) :
  zip l (g <$> l) = (fun x => (x, g x)) <$> l.
Proof. induction l as [|x l IH]; csimpl; [done | by rewrite IH]. Qed.

Section ChunkFacts.
Context {R : Type} `{Numerics R}.
Variable self : HuggingfaceCausalLM R.

(** The assertions put the continuation inside the input. *)
Lemma valid_request_span (x : encoded_request) :
  valid_request self x -> len (continuation_of x) <= input_length self x.
Proof.
  intros (Hctx & Hcont & Hmax). unfold input_length.
  rewrite model_input_len by lia. rewrite len_app. lia.
Qed.

Lemma score_row_eq (res : list (R * bool)) (x : encoded_request)
    (logits : list (list R)) (row : list Z) (inplen : Z) (cont_toks : list Z) :
  score_row res (x, (logits, (row, (inplen, cont_toks))))
  = extract logits inplen cont_toks ≫= fun answer => Ok (res ++ [answer]).
Proof. reflexivity. Qed.

(** The loop of lines 251-277 over the rows of a chunk. *)
Lemma score_rows_Ok (logits_of : encoded_request -> list (list R))
    (row_of : encoded_request -> list Z) (g : encoded_request -> R * bool)
    (chunk : list encoded_request) (res : list (R * bool)) :
  Forall (fun x => extract (logits_of x) (input_length self x) (continuation_of x)
                   = Ok (g x)) chunk ->
  foldlM score_row res
    ((fun x => (x, (logits_of x, (row_of x,
                  (input_length self x, continuation_of x))))) <$> chunk)
  = Ok (res ++ (g <$> chunk)).
Proof.
  intros Hall. revert res.
  induction Hall as [|x chunk Hx _ IH]; intros res.
  - rewrite fmap_nil. cbn [foldlM]. by rewrite app_nil_r.
  - rewrite !fmap_cons, foldlM_cons, score_row_eq, Hx, !bind_Ok_l.
    cbn beta. rewrite IH. by rewrite <- app_assoc.
Qed.

Lemma causal_logits_lookup (next : list Z -> list R) (row : list Z) (i : nat) :
  (i < length row)%nat ->
  (map log_softmax (causal_logits next row)) !! i
  = Some (log_softmax (next (take (S i) row))).
Proof.
  intros Hi. unfold causal_logits.
  change (map log_softmax) with (fmap (M:=list) log_softmax).
  rewrite !list_lookup_fmap, lookup_seq_lt by done. done.
Qed.

(** Under a causal model the padding of a row does not reach the answer. *)
Lemma extract_padded_row (next : list Z -> list R) (width : Z)
    (x : encoded_request) :
  valid_request self x -> input_length self x <= width ->
  extract (map log_softmax (causal_logits next (padded_row self width x)))
          (input_length self x) (continuation_of x)
  = extract (map log_softmax
               (causal_logits next
                  (padded_row self (input_length self x) x)))
            (input_length self x) (continuation_of x).
Proof.
  intros Hv Hw. apply extract_agree; [by apply valid_request_span|].
  intros i Hi. pose proof (len_nonneg (continuation_of x)).
  unfold padded_row. rewrite Z.sub_diag. simpl. rewrite app_nil_r.
  set (inp := model_input (max_length self) (context_of x) (continuation_of x)).
  assert (Hlen : (i < length inp)%nat).
  { unfold input_length in Hi. fold inp in Hi. unfold len in Hi. lia. }
  rewrite !causal_logits_lookup by (rewrite ?length_app; lia).
  by rewrite take_app_le by lia.
Qed.

(** The body of the loop over the chunks, for a causal model and a chunk
    in descending order whose requests pass the assertions. *)
Lemma process_chunk_causal (next : list Z -> list R)
    (chunk : list encoded_request) (res : list (R * bool)) :
  causal_backend self next ->
  chunk <> [] -> Forall (valid_request self) chunk -> descending chunk ->
  process_chunk self res chunk
  = foldlM score_row res
      ((fun x => (x, (map log_softmax
                        (causal_logits next
                           (padded_row self
                              (default 0 (head (input_length self <$> chunk))) x)),
                      (padded_row self
                         (default 0 (head (input_length self <$> chunk))) x,
                       (input_length self x, continuation_of x))))) <$> chunk).
Proof.
  intros Hcausal Hne Hvalid Hdesc.
  destruct (assemble_descending self chunk Hne Hvalid Hdesc)
    as (b & width & Hb & Hpad & Hhead & Hlens & Hinps & Hconts & _ & _ & _ & Hcat).
  unfold process_chunk. rewrite Hb. simpl. rewrite Hcat. simpl.
  rewrite Hcausal. simpl. rewrite Hhead. simpl.
  rewrite Hinps, Hlens, Hconts. f_equal.
  rewrite <- list_fmap_compose.
  change (map (map log_softmax)) with (fmap (M:=list) (map (A:=list R) log_softmax)).
  rewrite <- list_fmap_compose.
  by rewrite !zip_fmap_fmap, zip_fmap_r_diag.
Qed.
End ChunkFacts.

(** ** Chunks *)

Lemma chunks_from_concat {A : Type} (n : Z) (arr l : list A) :
  concat (chunks_from n arr l) = arr ++ l.
Proof.
  revert arr. induction l as [|x l IH]; intros arr; simpl.
  - destruct arr; simpl; by rewrite ?app_nil_r.
  - destruct (len (arr ++ [x]) =? n); simpl; rewrite IH; by rewrite <- ?app_assoc.
Qed.

Lemma chunks_from_nonempty {A : Type} (n : Z) (arr l : list A) :
  Forall (fun chunk => chunk <> []) (chunks_from n arr l).
Proof.
  revert arr. induction l as [|x l IH]; intros arr; simpl.
  - destruct arr; by repeat constructor.
  - destruct (len (arr ++ [x]) =? n); [constructor|]; try apply IH.
    by destruct arr.
Qed.

Lemma chunks_concat {A : Type} (iter : list A) (n : Z) :
  concat (chunks iter n) = iter.
Proof. unfold chunks. by rewrite chunks_from_concat. Qed.

(** Every chunk is a run of consecutive items. *)
Lemma chunks_infix {A : Type} (iter : list A) (n : Z) (chunk : list A) :
  chunk ∈ chunks iter n -> exists pre post, iter = pre ++ chunk ++ post.
Proof.
  intros Hin. apply list_elem_of_split in Hin as (cs1 & cs2 & Hcs).
  exists (concat cs1), (concat cs2).
  rewrite <- (chunks_concat iter n) at 1.
  rewrite Hcs, concat_app. done.
Qed.

Lemma Sorted_app_inv {A : Type} (r : relation A) (l1 l2 : list A) :
  Sorted r (l1 ++ l2) -> Sorted r l1 /\ Sorted r l2.
Proof.
  induction l1 as [|x l1 IH]; simpl; intros Hs.
  - split; [constructor | done].
  - apply Sorted_inv in Hs as [Hs Hhd]. destruct (IH Hs) as [Hs1 Hs2].
    split; [|done]. constructor; [done|].
    destruct l1; simpl in *; [constructor|].
    apply HdRel_inv in Hhd. by constructor.
Qed.

Lemma chunks_descending (iter : list encoded_request) (n : Z)
    (chunk : list encoded_request) :
  descending iter -> chunk ∈ chunks iter n -> descending chunk.
Proof.
  intros Hdesc (pre & post & ->)%chunks_infix. unfold descending in *.
  apply Sorted_app_inv in Hdesc as [_ Hdesc].
  by apply Sorted_app_inv in Hdesc as [Hdesc _].
Qed.

Lemma chunks_elem_of {A : Type} (iter : list A) (n : Z) (chunk : list A) (x : A) :
  chunk ∈ chunks iter n -> x ∈ chunk -> x ∈ iter.
Proof.
  intros (pre & post & ->)%chunks_infix Hx.
  rewrite !elem_of_app. auto.
Qed.

Lemma elem_of_chunks {A : Type} (iter : list A) (n : Z) (x : A) :
  x ∈ iter -> exists chunk, chunk ∈ chunks iter n /\ x ∈ chunk.
Proof.
  intros Hx. rewrite <- (chunks_concat iter n) in Hx.
  apply list_elem_of_In, in_concat in Hx as (chunk & Hchunk & Hx).
  exists chunk. by rewrite !list_elem_of_In.
Qed.

(** ** Independence from batching *)

Section Batching.
Context {R : Type} `{Numerics R}.
Variable self : HuggingfaceCausalLM R.
Variable next : list Z -> list R.
Hypothesis self_causal : causal_backend self next.

Lemma score_alone_extract (x : encoded_request) :
  valid_request self x ->
  score_alone self x
  = extract (map log_softmax
               (causal_logits next (padded_row self (input_length self x) x)))
            (input_length self x) (continuation_of x)
    ≫= fun answer => Ok [answer].
Proof.
  intros Hv. unfold score_alone.
  rewrite (process_chunk_causal self next [x] []);
    [| done | done | by apply Forall_singleton | by repeat constructor].
  rewrite !fmap_cons, !fmap_nil. cbn [head default].
  rewrite foldlM_cons, score_row_eq.
  destruct (extract _ _ _) as [answer|e]; reflexivity.
Qed.

(** A window that can be scored gets, when it is scored alone, the
    log_probability of the spec. *)
Lemma window_scored_alone (w : list Z * list Z) :
  scorable_window self next w ->
  exists is_greedy,
    score_alone self (None, w.1, w.2)
    = Ok [(window_log_probability self next w, is_greedy)].
Proof.
  intros (Hctx & [Hcont Hmax] & Hvocab).
  assert (Hv : valid_request self (None, w.1, w.2)) by done.
  pose proof (valid_request_span self _ Hv) as Hspan.
  rewrite score_alone_extract by done.
  unfold padded_row. rewrite Z.sub_diag. cbn [Z.to_nat replicate].
  rewrite app_nil_r.
  unfold input_length in *. cbn [context_of continuation_of fst snd] in *.
  rewrite model_input_spec in * by lia.
  assert (Hlp : map log_softmax
                  (causal_logits next (encode_spec (max_length self) w.1 w.2))
                = window_log_probs self next w).
  { unfold causal_logits, window_log_probs.
    change (map log_softmax) with (fmap (M:=list) log_softmax).
    by rewrite <- list_fmap_compose. }
  rewrite Hlp.
  destruct (extract_Ok_log_probability (window_log_probs self next w)
              (len (encode_spec (max_length self) w.1 w.2)) w.2)
    as (is_greedy & Hextract & _).
  - split; [done|].
    unfold window_log_probs, len. rewrite length_fmap, length_seq. lia.
  - done.
  - rewrite Hextract. by exists is_greedy.
Qed.

Lemma process_chunk_alone (g : encoded_request -> R * bool)
    (chunk : list encoded_request) (res : list (R * bool)) :
  chunk <> [] -> Forall (valid_request self) chunk -> descending chunk ->
  Forall (fun x => score_alone self x = Ok [g x]) chunk ->
  process_chunk self res chunk = Ok (res ++ (g <$> chunk)).
Proof.
  intros Hne Hvalid Hdesc Halone.
  rewrite (process_chunk_causal self next) by done.
  apply score_rows_Ok.
  destruct chunk as [|x0 chunk]; [done|].
  assert (Hm : 0 <= max_length self).
  { apply Forall_cons in Hvalid as [(_ & ? & ?) _]. lia. }
  pose proof (descending_head x0 chunk Hdesc) as Hhead.
  cbn [fmap list_fmap head default].
  rewrite Forall_forall in Hvalid, Halone, Hhead. apply Forall_forall.
  intros x Hx.
  change (input_length self x0 :: _) with (input_length self <$> x0 :: chunk).
  cbn [fmap list_fmap head default].
  rewrite extract_padded_row;
    [|by apply Hvalid | by apply input_length_mono, Hhead].
  specialize (Halone x Hx). rewrite score_alone_extract in Halone by auto.
  destruct (extract _ _ _) as [a|e]; simpl in Halone; congruence.
Qed.

Lemma process_chunks_alone (g : encoded_request -> R * bool)
    (cs : list (list encoded_request)) (res : list (R * bool)) :
  Forall (fun chunk => chunk <> [] /\ Forall (valid_request self) chunk
                       /\ descending chunk
                       /\ Forall (fun x => score_alone self x = Ok [g x]) chunk)
         cs ->
  foldlM (process_chunk self) res cs = Ok (res ++ (g <$> concat cs)).
Proof.
  intros Hall. revert res.
  induction Hall as [|chunk cs (Hne & Hv & Hd & Ha) _ IH]; intros res; simpl.
  - by rewrite app_nil_r.
  - rewrite (process_chunk_alone g) by done. simpl.
    rewrite IH, fmap_app. by rewrite <- app_assoc.
Qed.

(** For a causal model, every request gets the answer it gets when it is
    scored alone, in the original order of the requests. *)
Lemma loglikelihood_tokens_alone (g : encoded_request -> R * bool)
    (requests : list encoded_request) :
  Forall (valid_request self) requests ->
  Forall (fun x => score_alone self x = Ok [g x]) requests ->
  _loglikelihood_tokens self requests = Ok (Some ∘ g <$> requests).
Proof.
  intros Hvalid Halone. unfold _loglikelihood_tokens.
  rewrite (process_chunks_alone g).
  - simpl. rewrite chunks_concat. by rewrite get_original_fmap.
  - fold (likelihood_order requests).
    pose proof (chunks_from_nonempty (batch_size self) []
                  (likelihood_order requests)) as Hne.
    fold (chunks (likelihood_order requests) (batch_size self)) in Hne.
    rewrite Forall_forall in Hne. apply Forall_forall. intros chunk Hchunk.
    assert (Hsub : forall x, x ∈ chunk -> x ∈ requests).
    { intros x Hx.
      rewrite <- (get_reordered_perm _collate requests).
      by eapply chunks_elem_of. }
    rewrite Forall_forall in Hvalid, Halone.
    split; [by apply Hne|].
    split; [apply Forall_forall; auto|].
    split; [|apply Forall_forall; auto].
    eapply chunks_descending; [apply likelihood_order_descending | done].
Qed.
End Batching.

(** ** Requests that fail the assertions *)

Section Assertions.
Context {R : Type} `{Numerics R}.
Variable self : HuggingfaceCausalLM R.

Lemma add_row_invalid (b : batch) (x : encoded_request) :
  ~ valid_request self x -> add_row self b x = Raise AssertionError.
Proof.
  intros Hinv. unfold add_row, valid_request in *.
  destruct (Z.ltb_spec 0 (len (context_of x))); [|done].
  destruct (Z.ltb_spec 0 (len (continuation_of x))); [|done].
  destruct (Z.leb_spec (len (continuation_of x)) (max_length self)); [|done].
  tauto.
Qed.

Lemma first_invalid (chunk : list encoded_request) (x : encoded_request) :
  x ∈ chunk -> ~ valid_request self x ->
  exists pre y post,
    chunk = pre ++ y :: post
    /\ Forall (valid_request self) pre /\ ~ valid_request self y.
Proof.
  induction chunk as [|z chunk IH]; intros Hin Hinv.
  { by apply elem_of_nil in Hin. }
  destruct (decide (valid_request self z)) as [Hz|Hz].
  - apply elem_of_cons in Hin as [->|Hin]; [done|].
    destruct (IH Hin Hinv) as (pre & y & post & -> & Hpre & Hy).
    exists (z :: pre), y, post. split; [done|]. split; [by constructor | done].
  - exists [], z, chunk. split; [done|]. split; [constructor | done].
Qed.

(** In a chunk in descending order, the first request that fails an
    assertion stops the assembly with that assertion. *)
Lemma assemble_invalid (chunk : list encoded_request) (x : encoded_request) :
  descending chunk -> x ∈ chunk -> ~ valid_request self x ->
  assemble self chunk = Raise AssertionError.
Proof.
  intros Hdesc Hin Hinv.
  destruct (first_invalid chunk x Hin Hinv) as (pre & y & post & -> & Hpre & Hy).
  unfold assemble. rewrite foldlM_app.
  destruct pre as [|p pre].
  - simpl. by rewrite add_row_invalid.
  - apply Sorted_app_inv in Hdesc as [Hdesc _].
    destruct (assemble_descending self (p :: pre)) as (b & w & Hb & _);
      [done..|].
    unfold assemble in Hb. rewrite Hb. simpl. by rewrite add_row_invalid.
Qed.

Lemma foldlM_Raise_elem {A B : Type} (f : B -> A -> result B) (l : list A) (x : A) :
  x ∈ l -> (forall acc, exists e, f acc x = Raise e) ->
  forall acc, exists e, foldlM f acc l = Raise e.
Proof.
  intros Hin Hx. induction l as [|y l IH]; intros acc.
  { by apply elem_of_nil in Hin. }
  simpl. destruct (f acc y) as [acc'|e] eqn:Hy; simpl; [|eauto].
  apply elem_of_cons in Hin as [->|Hin]; [|by apply IH].
  destruct (Hx acc) as [e He]. congruence.
Qed.
End Assertions.

(** A request that fails an assertion lies in a chunk whose assembly stops
    with an assertion error; the call raises an exception. *)
Lemma loglikelihood_tokens_invalid {R : Type} `{Numerics R}
    (self : HuggingfaceCausalLM R) (requests : list encoded_request)
    (x : encoded_request) :
  x ∈ requests -> ~ valid_request self x ->
  (exists chunk,
     chunk ∈ chunks (likelihood_order requests) (batch_size self)
     /\ x ∈ chunk
     /\ assemble self chunk = Raise AssertionError
     /\ forall res, process_chunk self res chunk = Raise AssertionError)
  /\ (exists e, _loglikelihood_tokens self requests = Raise e)
  /\ (forall answers, _loglikelihood_tokens self requests <> Ok answers).
Proof.
  intros Hin Hinv.
  assert (Hin' : x ∈ likelihood_order requests).
  { unfold likelihood_order. by rewrite get_reordered_perm. }
  destruct (elem_of_chunks _ (batch_size self) x Hin')
    as (chunk & Hchunk & Hx).
  assert (Hasm : assemble self chunk = Raise AssertionError).
  { eapply assemble_invalid; [|done..].
    eapply chunks_descending; [apply likelihood_order_descending | done]. }
  assert (Hproc : forall res, process_chunk self res chunk = Raise AssertionError).
  { intros res. unfold process_chunk. by rewrite Hasm. }
  assert (Hcall : exists e, _loglikelihood_tokens self requests = Raise e).
  { unfold _loglikelihood_tokens.
    destruct (foldlM_Raise_elem (process_chunk self) _ chunk Hchunk
                (fun res => ex_intro _ AssertionError (Hproc res)) [])
      as [e He].
    exists e. unfold likelihood_order in He. by rewrite He. }
  split; [by exists chunk|]. split; [done|].
  intros answers Hok. destruct Hcall as [e He]. congruence.
Qed.

(** ** Rolling scoring *)

Lemma mapM_answer_log_prob {R : Type} (l : list (option (R * bool))) (lps : list R) :
  mapM answer_log_prob l = Ok lps <->
  exists answers, l = Some <$> answers /\ lps = answers.*1.
Proof.
  revert lps. induction l as [|o l IH]; intros lps; cbn [mapM].
  - split.
    + intros [= <-]. by exists [].
    + intros (answers & Hl & ->). by destruct answers.
  - rewrite bind_Ok. split.
    + intros (lp & Hlp & Hrest). apply bind_Ok in Hrest as (rest & Hrest & Hret).
      injection Hret as <-. apply IH in Hrest as (answers & -> & ->).
      destruct o as [a|]; [|done]. injection Hlp as <-.
      by exists (a :: answers).
    + intros (answers & Hl & ->). destruct answers as [|a answers]; [done|].
      injection Hl as -> ->. exists a.1. split; [done|].
      apply bind_Ok. exists answers.*1. split; [|done].
      apply IH. by exists answers.
Qed.

Section Rolling.
Context {R : Type} `{Numerics R}.
Variable self : HuggingfaceCausalLM R.
Variable get_rolling_token_windows :
  list Z -> Z -> Z -> Z -> result (list (list Z * list Z)).
Variable make_disjoint_window : list Z * list Z -> list Z * list Z.

Local Abbreviation doc_total :=
  (document_total self get_rolling_token_windows make_disjoint_window).

(** The requests of a document are its windows, each made disjoint. *)
Lemma rolling_token_windows_eq (doc : string) :
  rolling_token_windows self get_rolling_token_windows make_disjoint_window doc
  = get_rolling_token_windows (tok_encode self doc) (eot_token_id self)
      (max_length self) 1
    ≫= fun windows : list (list Z * list Z) =>
         Ok (window_request make_disjoint_window <$> windows).
Proof.
  unfold rolling_token_windows.
  destruct (get_rolling_token_windows _ _ _ _) as [windows|e]; [|done].
  rewrite !bind_Ok_l. f_equal.
  induction windows as [|w windows IH]; [done|].
  simpl. by rewrite IH.
Qed.

Lemma rolling_step_Ok (loglikelihoods out : list R) (doc : string) :
  rolling_step self get_rolling_token_windows make_disjoint_window
    loglikelihoods doc = Ok out
  <-> exists total, out = loglikelihoods ++ [total] /\ doc_total doc total.
Proof.
  unfold rolling_step, document_total. rewrite rolling_token_windows_eq. split.
  - intros Hstep.
    apply bind_Ok in Hstep as (requests & Hw & Hstep).
    apply bind_Ok in Hw as (windows & Hw & Hreq). injection Hreq as <-.
    apply bind_Ok in Hstep as (nll & Hnll & Hstep).
    apply bind_Ok in Hstep as (lps & Hlps & Hstep).
    injection Hstep as <-.
    apply mapM_answer_log_prob in Hlps as (answers & -> & ->).
    eexists. split; [done|]. by exists windows, answers.
  - intros (total & -> & windows & answers & Hw & Hnll & ->).
    rewrite Hw, !bind_Ok_l. cbn beta. rewrite Hnll, bind_Ok_l.
    assert (Hlps : mapM answer_log_prob (Some <$> answers) = Ok answers.*1).
    { apply mapM_answer_log_prob. by exists answers. }
    cbn beta. rewrite Hlps. done.
Qed.

Lemma rolling_loop_Ok (docs : list string) (loglikelihoods out : list R) :
  foldlM (rolling_step self get_rolling_token_windows make_disjoint_window)
         loglikelihoods docs = Ok out
  <-> exists totals,
        out = loglikelihoods ++ totals /\ Forall2 doc_total docs totals.
Proof.
  revert loglikelihoods.
  induction docs as [|doc docs IH]; intros loglikelihoods; cbn [foldlM].
  - split.
    + intros [= <-]. exists []. by rewrite app_nil_r.
    + intros (totals & -> & Hall). apply Forall2_nil_inv_l in Hall as ->.
      by rewrite app_nil_r.
  - rewrite bind_Ok. split.
    + intros (acc & Hacc & Hrest).
      apply rolling_step_Ok in Hacc as (total & -> & Htotal).
      apply IH in Hrest as (totals & -> & Hall).
      exists (total :: totals). split; [by rewrite <- app_assoc|].
      by constructor.
    + intros (totals & -> & Hall).
      apply Forall2_cons_inv_l in Hall as (total & totals' & Htotal & Hall & ->).
      exists (loglikelihoods ++ [total]). split.
      * apply rolling_step_Ok. by exists total.
      * apply IH. exists totals'. by rewrite <- app_assoc.
Qed.

(** For a causal model, the total of a document whose disjoint windows can
    be scored is the sum of their log_probability, in the words of the
    spec. *)
Lemma document_total_causal (next : list Z -> list R) (doc : string)
    (raw : list (list Z * list Z)) :
  causal_backend self next ->
  get_rolling_token_windows (tok_encode self doc) (eot_token_id self)
    (max_length self) 1 = Ok raw ->
  Forall (fun w => scorable_window self next (make_disjoint_window w)) raw ->
  doc_total doc
    (foldl fadd fzero
       (window_log_probability self next ∘ make_disjoint_window <$> raw)).
Proof.
  intros Hcausal Hraw Hall.
  set (g := fun x : encoded_request =>
              match score_alone self x with
              | Ok [a] => a
              | _ => (fzero, false)
              end).
  assert (Hg : Forall (fun w =>
                 score_alone self (window_request make_disjoint_window w)
                   = Ok [g (window_request make_disjoint_window w)]
                 /\ (g (window_request make_disjoint_window w)).1
                    = window_log_probability self next (make_disjoint_window w))
                raw).
  { eapply Forall_impl; [exact Hall|]. intros w Hw.
    destruct (window_scored_alone self next Hcausal _ Hw) as (flag & Hs).
    unfold g, window_request. by rewrite Hs. }
  exists raw, (g ∘ window_request make_disjoint_window <$> raw).
  split; [done|]. split.
  - rewrite (loglikelihood_tokens_alone self next Hcausal g).
    + by rewrite <- !list_fmap_compose.
    + apply Forall_fmap. eapply Forall_impl; [exact Hall|].
      by intros w (? & ? & _).
    + apply Forall_fmap. eapply Forall_impl; [exact Hg|]. by intros w [? _].
  - f_equal. rewrite <- list_fmap_compose. apply Forall_fmap_ext_1.
    eapply Forall_impl; [exact Hg|]. by intros w [_ ?].
Qed.

Lemma document_totals_causal (next : list Z -> list R) (docs : list string)
    (raws : list (list (list Z * list Z))) :
  causal_backend self next ->
  Forall2 (fun doc raw =>
             get_rolling_token_windows (tok_encode self doc) (eot_token_id self)
               (max_length self) 1 = Ok raw) docs raws ->
  Forall (Forall (fun w => scorable_window self next (make_disjoint_window w)))
         raws ->
  Forall2 doc_total docs
    ((fun raw =>
        foldl fadd fzero
          (window_log_probability self next ∘ make_disjoint_window <$> raw))
       <$> raws).
Proof.
  intros Hcausal Hraws. induction Hraws as [|doc raw docs raws Hraw _ IH].
  - constructor.
  - intros [Hw Hall]%Forall_cons. rewrite fmap_cons. constructor; [|auto].
    by apply (document_total_causal next).
Qed.

Lemma rolling_loop_totals (docs : list string) (totals : list R)
    (old : option (list R)) :
  Forall2 doc_total docs totals ->
  loglikelihood_rolling self get_rolling_token_windows make_disjoint_window
    (AttrSequence docs old) = Ok (AttrSequence docs (Some totals), tt).
Proof.
  intros Hall. unfold loglikelihood_rolling. simpl.
  assert (Hloop : foldlM (rolling_step self get_rolling_token_windows
                            make_disjoint_window) [] docs = Ok totals).
  { apply rolling_loop_Ok. by exists totals. }
  by rewrite Hloop.
Qed.

(** C9, on a sequence that accepts the attribute: the call returns exactly
    when every document has a total, and then [resps] holds, in the order
    of the documents, one number per document, the sum of the
    log-probabilities of the answers of its windows, the windows of the
    document's tokens each made disjoint; the greedy flags of the answers
    do not occur in it. For a causal model and windows that can be scored,
    the call returns, and the number of a document is the sum over its
    disjoint windows, in their order, of the window's log_probability in
    the words of the spec. *)
Theorem rolling_scores_sum_the_windows (docs : list string)
    (old : option (list R)) :
  (forall r,
     loglikelihood_rolling self get_rolling_token_windows make_disjoint_window
       (AttrSequence docs old) = Ok r ->
     exists totals,
       r = (AttrSequence docs (Some totals), tt)
       /\ length totals = length docs
       /\ Forall2 doc_total docs totals)
  /\ (forall totals,
        Forall2 doc_total docs totals ->
        loglikelihood_rolling self get_rolling_token_windows make_disjoint_window
          (AttrSequence docs old) = Ok (AttrSequence docs (Some totals), tt))
  /\ (forall next raws,
        causal_backend self next ->
        Forall2 (fun doc raw =>
                   get_rolling_token_windows (tok_encode self doc)
                     (eot_token_id self) (max_length self) 1 = Ok raw)
                docs raws ->
        Forall (Forall (fun w =>
                  scorable_window self next (make_disjoint_window w))) raws ->
        loglikelihood_rolling self get_rolling_token_windows make_disjoint_window
          (AttrSequence docs old)
        = Ok (AttrSequence docs
                (Some ((fun raw =>
                          foldl fadd fzero
                            (window_log_probability self next
                               ∘ make_disjoint_window <$> raw)) <$> raws)),
              tt)).
Proof.
  split; [|split].
  - unfold loglikelihood_rolling. simpl.
    intros r Hr. apply bind_Ok in Hr as (totals & Hloop & Hr).
    simpl in Hr. injection Hr as <-.
    apply rolling_loop_Ok in Hloop as (totals' & -> & Hall). simpl.
    exists totals'. split; [done|]. split; [|done].
    symmetry. by eapply Forall2_length.
  - intros totals Hall. by apply rolling_loop_totals.
  - intros next raws Hcausal Hraws Hall.
    by apply rolling_loop_totals, document_totals_causal.
Qed.

End Rolling.

(** ** Delivery of the results *)

Lemma get_original_length {A V : Type} (re_ord : Reorderer (A:=A))
    (newarr : list V) :
  length (get_original re_ord newarr) = ro_size re_ord.
Proof.
  unfold get_original.
  generalize (zip (ro_arr re_ord) newarr).
  assert (Hgen : forall (pairs : list (nat * A * V)) (init : list (option V)),
            length (foldl (fun res '((ind, _), v) => <[ind := Some v]> res)
                          init pairs) = length init).
  { induction pairs as [|[[i x] v] pairs IH]; intros init; simpl; [done|].
    by rewrite IH, length_insert. }
  intros pairs. by rewrite Hgen, length_replicate.
Qed.

Section Heap.
Context {R : Type}.
Implicit Types heap : gmap positive (Request.t R).
Implicit Types pairs : list (positive * option (R * bool)).

Lemma write_resps_frame heap pairs (l : positive) :
  l ∉ pairs.*1 -> foldl write_resps heap pairs !! l = heap !! l.
Proof.
  revert heap. induction pairs as [|[l0 r0] pairs IH]; intros heap Hl; [done|].
  simpl in *. apply not_elem_of_cons in Hl as [Hne Hl].
  rewrite IH by done. unfold write_resps. simpl. by rewrite lookup_alter_ne.
Qed.


Lemma write_resps_lookup heap pairs (l : positive) (resp : option (R * bool)) :
  NoDup pairs.*1 -> (l, resp) ∈ pairs ->
  foldl write_resps heap pairs !! l
  = (fun req => Request.mk (Request.inps req) (Some resp)) <$> heap !! l.
Proof.
  revert heap. induction pairs as [|[l0 r0] pairs IH]; intros heap Hnd Hin.
  { by apply elem_of_nil in Hin. }
  simpl in *. apply NoDup_cons in Hnd as [Hl0 Hnd].
  apply elem_of_cons in Hin as [[= -> ->]|Hin].
  - rewrite write_resps_frame by done. unfold write_resps. simpl.
    by rewrite lookup_alter_eq.
  - rewrite IH by done. unfold write_resps. simpl.
    rewrite lookup_alter_ne; [done|].
    intros ->. apply Hl0. apply list_elem_of_fmap. by exists (l, resp).
Qed.
End Heap.

Section Delivery.
Context {R : Type} `{Numerics R}.
Variable self : HuggingfaceCausalLM R.

Lemma read_requests_Ok (heap : gmap positive (Request.t R))
    (requests : list positive) (acc out : list encoded_request) :
  foldlM (fun new_reqs l =>
            req ← read_request heap l;
            Ok (new_reqs ++ [encode_request self req])) acc requests = Ok out
  -> exists new_reqs,
       out = acc ++ new_reqs
       /\ Forall2 (fun l x => exists req, heap !! l = Some req
                                         /\ x = encode_request self req)
                  requests new_reqs.
Proof.
  revert acc. induction requests as [|l requests IH]; intros acc; cbn [foldlM].
  - intros [= <-]. exists []. by rewrite app_nil_r.
  - intros Hloop. apply bind_Ok in Hloop as (acc' & Hacc & Hrest).
    apply bind_Ok in Hacc as (req & Hreq & Hacc). injection Hacc as <-.
    apply IH in Hrest as (new_reqs & -> & Hall).
    exists (encode_request self req :: new_reqs).
    split; [by rewrite <- app_assoc|]. constructor; [|done].
    exists req. split; [|done]. unfold read_request in Hreq.
    by destruct (heap !! l) as [req'|]; [injection Hreq as ->|].
Qed.

End Delivery.

(** C8: a request whose continuation is longer than the maximal length, or
    empty, lies in a chunk whose assembly stops with an assertion error, so
    that the loop body fails on that chunk without calling the model; the
    call raises an exception and returns no list of answers, and so does
    [loglikelihood] for a request object whose continuation tokenizes to
    such a list. *)
Theorem bad_continuation_aborts_the_call {R : Type} `{Numerics R}
    (self : HuggingfaceCausalLM R) (requests : list encoded_request)
    (x : encoded_request) :
  x ∈ requests ->
  max_length self < len (continuation_of x) \/ len (continuation_of x) = 0 ->
  (exists chunk,
     chunk ∈ chunks (likelihood_order requests) (batch_size self)
     /\ x ∈ chunk
     /\ assemble self chunk = Raise AssertionError
     /\ forall res, process_chunk self res chunk = Raise AssertionError)
  /\ (exists e, _loglikelihood_tokens self requests = Raise e)
  /\ (forall answers, _loglikelihood_tokens self requests <> Ok answers)
  /\ (forall heap objects l req,
        l ∈ objects -> heap !! l = Some req ->
        encode_request self req = x ->
        forall r, loglikelihood self heap objects <> Ok r).
Proof.
  intros Hin Hbad.
  assert (Hinv : ~ valid_request self x).
  { unfold valid_request. lia. }
  destruct (loglikelihood_tokens_invalid self requests x Hin Hinv)
    as (Hchunk & Hraise & Hno).
  repeat split; try done.
  intros heap objects l req Hl Hreq Hx r Hcall. unfold loglikelihood in Hcall.
  apply bind_Ok in Hcall as (new_reqs & Hread & Hcall).
  apply bind_Ok in Hcall as (resps & Hresps & _).
  apply read_requests_Ok in Hread as (new_reqs' & -> & Hall). simpl in Hresps.
  apply list_elem_of_lookup in Hl as [i Hi].
  destruct (Forall2_lookup_l _ _ _ _ _ Hall Hi) as (y & Hy & req' & Hreq' & ->).
  assert (req' = req) as -> by congruence.
  destruct (loglikelihood_tokens_invalid self new_reqs' x) as (_ & _ & Hno');
    [|done|by eapply Hno'].
  rewrite <- Hx. by eapply list_elem_of_lookup_2.
Qed.


(** ** Padding and order *)

Section TwoRuns.
Context {R : Type} `{Numerics R}.
Variable self : HuggingfaceCausalLM R.

(** What the loop body computes for a chunk of one request. *)
Lemma process_chunk_one (q : encoded_request) (logits : list (list R))
    (r : R * bool) :
  _model_call self [padded_row self (input_length self q) q] = Ok [logits] ->
  process_chunk self [] [q] = Ok [r] ->
  extract (map log_softmax logits) (input_length self q) (continuation_of q)
  = Ok r.
Proof.
  intros Hcall Hrun. unfold process_chunk in Hrun.
  apply bind_Ok in Hrun as (b & Hb%assemble_cons & Hrun).
  destruct Hb as [_ ->]. cbn [inps inplens cont_toks_list] in Hrun.
  apply bind_Ok in Hrun as (batched & Hcat & Hrun).
  rewrite fmap_cons, fmap_nil in Hcat, Hrun.
  unfold torch_cat in Hcat. cbn [forallb] in Hcat.
  rewrite Z.eqb_refl in Hcat. cbn [andb] in Hcat.
  injection Hcat as <-. rewrite Hcall, bind_Ok_l in Hrun.
  cbn [zip_with map fmap list_fmap] in Hrun.
  rewrite foldlM_cons, score_row_eq in Hrun.
  destruct (extract (map log_softmax logits) _ _) as [a|e];
    [|discriminate Hrun].
  rewrite !bind_Ok_l in Hrun. cbn [foldlM app] in Hrun. congruence.
Qed.

(** What the loop body computes for the second request of a chunk of two. *)
Lemma process_chunk_two (p q : encoded_request) (first second : list (list R))
    (rp rq : R * bool) :
  _model_call self [padded_row self (input_length self p) p;
                    padded_row self (input_length self p) q]
    = Ok [first; second] ->
  process_chunk self [] [p; q] = Ok [rp; rq] ->
  extract (map log_softmax second) (input_length self q) (continuation_of q)
  = Ok rq.
Proof.
  intros Hcall Hrun. unfold process_chunk in Hrun.
  apply bind_Ok in Hrun as (b & Hb%assemble_cons & Hrun).
  destruct Hb as [_ ->]. cbn [inps inplens cont_toks_list] in Hrun.
  apply bind_Ok in Hrun as (batched & Hcat & Hrun).
  assert (batched = [padded_row self (input_length self p) p;
                     padded_row self (input_length self p) q]) as ->.
  { rewrite !fmap_cons, fmap_nil in Hcat.
    unfold torch_cat in Hcat.
    by destruct (forallb _ _); [injection Hcat as <-|]. }
  rewrite Hcall, bind_Ok_l in Hrun.
  rewrite !fmap_cons, !fmap_nil in Hrun.
  cbn [zip_with map] in Hrun.
  rewrite foldlM_cons, score_row_eq in Hrun.
  destruct (extract (map log_softmax first) _ _) as [a|e];
    [|discriminate Hrun].
  rewrite !bind_Ok_l, foldlM_cons, score_row_eq in Hrun.
  destruct (extract (map log_softmax second) _ _) as [a'|e];
    [|discriminate Hrun].
  rewrite !bind_Ok_l in Hrun. cbn [foldlM app] in Hrun. congruence.
Qed.
End TwoRuns.

(** C5: the answer of the extractor depends on the logits at the positions
    [inplen - contlen, inplen) only: rows of logits that agree there, of any
    lengths, give the same pair, and so do rows that differ at padded
    positions, from [inplen] on, only. Hence a request scored alone and the
    same request scored after a longer request, padded to its width, get
    the same answer whenever the logits of the model agree on the span. *)
Theorem padding_does_not_reach_the_answer {R : Type} `{Numerics R}
    (self : HuggingfaceCausalLM R) :
  (forall (logits1 logits2 : list (list R)) inplen cont_toks,
     len cont_toks <= inplen ->
     (forall i : nat, inplen - len cont_toks <= Z.of_nat i < inplen ->
        logits1 !! i = logits2 !! i) ->
     extract logits1 inplen cont_toks = extract logits2 inplen cont_toks)
  /\ (forall (logits1 logits2 : list (list R)) inplen cont_toks,
        len cont_toks <= inplen ->
        take (Z.to_nat inplen) logits1 = take (Z.to_nat inplen) logits2 ->
        extract logits1 inplen cont_toks = extract logits2 inplen cont_toks)
  /\ (forall p q alone first second r rp r',
        valid_request self q ->
        _model_call self [padded_row self (input_length self q) q]
          = Ok [alone] ->
        _model_call self [padded_row self (input_length self p) p;
                          padded_row self (input_length self p) q]
          = Ok [first; second] ->
        (forall i : nat,
           input_length self q - len (continuation_of q) <= Z.of_nat i
             < input_length self q ->
           alone !! i = second !! i) ->
        process_chunk self [] [q] = Ok [r] ->
        process_chunk self [] [p; q] = Ok [rp; r'] ->
        r = r').
Proof.
  split; [|split].
  - intros. by apply extract_agree.
  - intros logits1 logits2 inplen cont_toks Hlen Htake.
    apply extract_agree; [done|]. intros i Hi.
    rewrite <- (lookup_take_lt logits1 (Z.to_nat inplen)) by lia.
    rewrite <- (lookup_take_lt logits2 (Z.to_nat inplen)) by lia.
    by rewrite Htake.
  - intros p q alone first second r rp r' Hv Halone Hboth Hagree Hr Hr'.
    apply (process_chunk_one self q alone r Halone) in Hr.
    apply (process_chunk_two self p q first second rp r' Hboth) in Hr'.
    rewrite (extract_agree (map log_softmax alone) (map log_softmax second))
      in Hr.
    + congruence.
    + by apply valid_request_span.
    + intros i Hi.
      change (map log_softmax) with (fmap (M:=list) (log_softmax (R:=R))).
      rewrite !list_lookup_fmap. by rewrite Hagree.
Qed.

(** C3: [get_original], given the results of the reordered items in their
    order, gives them back in the order of the requests, whatever the key
    and the per-item step are. Hence, for a causal model, the scoring of
    any list of requests that pass the assertions gives every request the
    answer it gets alone, in the order of the list; the answers of a
    permutation of the list are the answers of the list, permuted alike. *)
Theorem original_order_is_restored {R : Type} `{Numerics R}
    {A K V : Type} `{PyOrd K} (fn : A -> K) (step : A -> V) (arr : list A)
    (self : HuggingfaceCausalLM R) (next : list Z -> list R)
    (answer : encoded_request -> R * bool)
    (requests permuted : list encoded_request) :
  get_original (Reorderer_init fn arr)
    (step <$> get_reordered (Reorderer_init fn arr)) = Some ∘ step <$> arr
  /\ (causal_backend self next ->
      Forall (valid_request self) requests ->
      Forall (fun x => score_alone self x = Ok [answer x]) requests ->
      permuted ≡ₚ requests ->
      _loglikelihood_tokens self requests = Ok (Some ∘ answer <$> requests)
      /\ _loglikelihood_tokens self permuted = Ok (Some ∘ answer <$> permuted)
      /\ zip permuted (Some ∘ answer <$> permuted)
           ≡ₚ zip requests (Some ∘ answer <$> requests)).
Proof.
  split; [apply get_original_fmap|].
  intros Hcausal Hvalid Halone Hperm.
  split; [by apply (loglikelihood_tokens_alone self next)|].
  split.
  - apply (loglikelihood_tokens_alone self next); [done|by rewrite Hperm..].
  - rewrite !zip_fmap_r_diag. by rewrite Hperm.
Qed.

(** * Examples *)

Lemma model_input_truncates_then_drops_example :
  0 <= 3
  /\ model_input 3 [1; 2; 3] [4; 5] = [2; 3; 4]
  /\ len (model_input 3 [1; 2; 3] [4; 5]) <= 3.
Proof.
  split; [lia|].
  destruct (model_input_truncates_then_drops 3 [1; 2; 3] [4; 5])
    as (Heq & _ & _ & Hlen & _); [lia|].
  split; [reflexivity | exact Hlen].
Defined.

Lemma Z_score_order : score_order Z.
Proof.
  split; [|split].
  - intros a. apply Z.ltb_irrefl.
  - intros a b c Hab%Z.ltb_lt Hbc%Z.ltb_lt. apply Z.ltb_lt. lia.
  - intros a b c Hac%Z.ltb_lt. destruct (Z.lt_ge_cases a b) as [Hab|Hba].
    + left. by apply Z.ltb_lt.
    + right. apply Z.ltb_lt. lia.
Defined.

Lemma extract_example :
  len [0; 1] <= 3 <= len [[1; 2; 3]; [5; 1; 1]; [0; 9; 2]; [7; 7; 8]]
  /\ extract [[1; 2; 3]; [5; 1; 1]; [0; 9; 2]; [7; 7; 8]] 3 [0; 1]
     = Ok (14, true)
  /\ log_probability_spec [[1; 2; 3]; [5; 1; 1]; [0; 9; 2]; [7; 7; 8]] 3 [0; 1]
     = 14
  /\ (forall k tok, [0; 1] !! k = Some tok ->
        first_maximum
          (distribution [[1; 2; 3]; [5; 1; 1]; [0; 9; 2]; [7; 7; 8]] 3 [0; 1] k)
          tok)
  /\ extract [[1; 2; 3]; [5; 1; 1]; [0; 9; 2]; [7; 7; 8]] 3 [0; 2]
     = Ok (7, false)
  /\ ~ (forall k tok, [0; 2] !! k = Some tok ->
          first_maximum
            (distribution [[1; 2; 3]; [5; 1; 1]; [0; 9; 2]; [7; 7; 8]] 3
               [0; 2] k)
            tok).
Proof.
  assert (Hspan : len [0; 1] <= 3
                  <= len [[1; 2; 3]; [5; 1; 1]; [0; 9; 2]; [7; 7; 8]]).
  { unfold len. simpl. lia. }
  split; [exact Hspan|].
  split; [reflexivity|]. split; [reflexivity|]. split.
  - destruct (extract_sums_span_and_flags_greedy
                [[1; 2; 3]; [5; 1; 1]; [0; 9; 2]; [7; 7; 8]] 3 [0; 1] Hspan)
      as (_ & is_greedy & Hextract & _ & Hfirst).
    + intros [|[|k]] tok Hk; simpl in Hk; [| |discriminate Hk];
        injection Hk as <-; unfold len; simpl; lia.
    + apply (Hfirst Z_score_order).
      assert (Hrun : extract [[1; 2; 3]; [5; 1; 1]; [0; 9; 2]; [7; 7; 8]] 3
                       [0; 1] = Ok (14, true)) by reflexivity.
      congruence.
  - split; [reflexivity|].
    destruct (extract_sums_span_and_flags_greedy
                [[1; 2; 3]; [5; 1; 1]; [0; 9; 2]; [7; 7; 8]] 3 [0; 2] Hspan)
      as (_ & is_greedy & Hextract & _ & Hfirst).
    + intros [|[|k]] tok Hk; simpl in Hk; [| |discriminate Hk];
        injection Hk as <-; unfold len; simpl; lia.
    + intros Hall. apply (Hfirst Z_score_order) in Hall.
      assert (Hrun : extract [[1; 2; 3]; [5; 1; 1]; [0; 9; 2]; [7; 7; 8]] 3
                       [0; 2] = Ok (7, false)) by reflexivity.
      assert (Hflag : is_greedy = false) by congruence.
      rewrite Hflag in Hall. discriminate Hall.
Defined.

Lemma original_order_example :
  causal_backend toy_lm toy_scores
  /\ _loglikelihood_tokens toy_lm
       [(None, [1; 2], [3]); (None, [1], [2; 3; 1])]
     = Ok (Some ∘ toy_answer
             <$> [(None, [1; 2], [3]); (None, [1], [2; 3; 1])])
  /\ _loglikelihood_tokens toy_lm
       [(None, [1], [2; 3; 1]); (None, [1; 2], [3])]
     = Ok (Some ∘ toy_answer
             <$> [(None, [1], [2; 3; 1]); (None, [1; 2], [3])]).
Proof.
  assert (Hcausal : causal_backend toy_lm toy_scores).
  { intros batch. reflexivity. }
  split; [exact Hcausal|].
  destruct (original_order_is_restored (fun n : Z => n) Z.succ [3; 1; 2]
              toy_lm toy_scores toy_answer
              [(None, [1; 2], [3]); (None, [1], [2; 3; 1])]
              [(None, [1], [2; 3; 1]); (None, [1; 2], [3])])
    as (_ & Hcall).
  destruct Hcall as (Hreq & Hperm & _).
  - exact Hcausal.
  - repeat constructor; unfold len; simpl; lia.
  - repeat constructor.
  - apply perm_swap.
  - split; [exact Hreq | exact Hperm].
Defined.

Lemma batch_example :
  descending [(None, [1], [2; 3; 1]); (None, [1; 2], [3])]
  /\ exists b,
       assemble toy_lm [(None, [1], [2; 3; 1]); (None, [1; 2], [3])] = Ok b
       /\ padding_length b = Some 3
       /\ inps b = [[1; 2; 3]; [1; 2; 0]].
Proof.
  assert (Hdesc : descending [(None, [1], [2; 3; 1]); (None, [1; 2], [3])]).
  { repeat constructor. unfold total_length, len. simpl. lia. }
  split; [exact Hdesc|].
  destruct (batch_padded_to_first_and_longest_row toy_lm
              [(None, [1], [2; 3; 1]); (None, [1; 2], [3])])
    as (Hruns & Hshape).
  - discriminate.
  - destruct Hruns as (b & Hb & _).
    + repeat constructor; unfold len; simpl; lia.
    + exact Hdesc.
    + exists b. destruct (Hshape b Hb) as (width & Hpad & Hhead & _ & Hinps & _).
      injection Hhead as <-. split; [exact Hb|].
      split; [exact Hpad | exact Hinps].
Defined.

Lemma padding_example :
  len [1] <= 2
  /\ extract [[1; 2]; [3; 4]] 2 [1] = extract [[1; 2]; [3; 4]; [9; 9]] 2 [1].
Proof.
  assert (Hlen : len [1] <= 2) by (unfold len; simpl; lia).
  split; [exact Hlen|].
  apply (proj1 (proj2 (padding_does_not_reach_the_answer toy_lm))).
  - exact Hlen.
  - reflexivity.
Defined.

Lemma stop_truncation_example :
  Forall (fun t => t <> EmptyString) ["<STOP2>"; "<STOP1>"]
  /\ truncate_at_stops "abc<STOP1>def<STOP2>ghi" ["<STOP2>"; "<STOP1>"]
     = Ok (sequential_truncation "abc<STOP1>def<STOP2>ghi"
             ["<STOP2>"; "<STOP1>"]).
Proof.
  assert (Hne : Forall (fun t => t <> EmptyString) ["<STOP2>"; "<STOP1>"]).
  { repeat constructor; discriminate. }
  split; [exact Hne|].
  exact (proj1 (stop_truncation_is_sequential toy_lm
                  "abc<STOP1>def<STOP2>ghi" ["<STOP2>"; "<STOP1>"]) Hne).
Defined.

Lemma bad_continuation_example :
  max_length toy_lm < len [1; 2; 3; 0; 1]
  /\ exists e,
       _loglikelihood_tokens toy_lm
         [(None, [1], [2]); (None, [1], [1; 2; 3; 0; 1])] = Raise e.
Proof.
  assert (Hlong : max_length toy_lm < len [1; 2; 3; 0; 1]).
  { unfold len. simpl. lia. }
  split; [exact Hlong|].
  destruct (bad_continuation_aborts_the_call toy_lm
              [(None, [1], [2]); (None, [1], [1; 2; 3; 0; 1])]
              (None, [1], [1; 2; 3; 0; 1]))
    as (_ & Hraise & _).
  - apply list_elem_of_further, list_elem_of_here.
  - left. exact Hlong.
  - exact Hraise.
Defined.

Lemma rolling_example :
  causal_backend toy_lm toy_scores
  /\ toy_rolling_windows (tok_encode toy_lm "cdabc") (eot_token_id toy_lm)
       (max_length toy_lm) 1
     = Ok [([0; 3], [3; 0]); ([0; 1], [1; 2]); ([2], [3])]
  /\ toy_disjoint <$> [([0; 3], [3; 0]); ([0; 1], [1; 2]); ([2], [3])]
     = [([0], [3; 0]); ([0], [1; 2]); ([2], [3])]
  /\ window_log_probability toy_lm toy_scores
       <$> [([0], [3; 0]); ([0], [1; 2]); ([2], [3])] = [2; 1; 0]
  /\ chunks (likelihood_order
               [(None, [0], [3; 0]); (None, [0], [1; 2]); (None, [2], [3])])
            (batch_size toy_lm)
     = [[(None, [0], [1; 2]); (None, [0], [3; 0])]; [(None, [2], [3])]]
  /\ toy_rolling_windows (tok_encode toy_lm "abc") (eot_token_id toy_lm)
       (max_length toy_lm) 1
     = Ok [([0; 1], [1; 2]); ([2], [3])]
  /\ window_log_probability toy_lm toy_scores <$> [([0], [1; 2]); ([2], [3])]
     = [1; 0]
  /\ loglikelihood_rolling toy_lm toy_rolling_windows toy_disjoint
       (AttrSequence ["cdabc"; "abc"] None)
     = Ok (AttrSequence ["cdabc"; "abc"] (Some [3; 1]), tt)
  /\ loglikelihood_rolling toy_lm toy_rolling_windows (fun w => w)
       (AttrSequence ["cdabc"; "abc"] None)
     = Ok (AttrSequence ["cdabc"; "abc"] (Some [1; 2]), tt)
  /\ exists totals,
       (AttrSequence ["cdabc"; "abc"] (Some [3; 1]), tt)
         = (AttrSequence ["cdabc"; "abc"] (Some totals), tt)
       /\ length totals = length ["cdabc"; "abc"]
       /\ Forall2 (document_total toy_lm toy_rolling_windows toy_disjoint)
            ["cdabc"; "abc"] totals.
Proof.
  assert (Hcausal : causal_backend toy_lm toy_scores).
  { intros batch. reflexivity. }
  destruct (rolling_scores_sum_the_windows toy_lm toy_rolling_windows
              toy_disjoint ["cdabc"; "abc"] None) as (Hreturns & _ & Hspec).
  assert (Hrun : loglikelihood_rolling toy_lm toy_rolling_windows toy_disjoint
                   (AttrSequence ["cdabc"; "abc"] None)
                 = Ok (AttrSequence ["cdabc"; "abc"] (Some [3; 1]), tt)).
  { apply (Hspec toy_scores
             [[([0; 3], [3; 0]); ([0; 1], [1; 2]); ([2], [3])];
              [([0; 1], [1; 2]); ([2], [3])]] Hcausal).
    - repeat constructor.
    - repeat apply Forall_cons_2; try apply Forall_nil_2;
        (split; [unfold len; simpl; lia|]);
        (split; [unfold len; simpl; lia|]);
        intros [|[|k]] tok Hk; simpl in Hk; try discriminate Hk;
        injection Hk as <-; vm_compute; split; congruence. }
  split; [exact Hcausal|].
  do 6 (split; [reflexivity|]).
  split; [exact Hrun|]. split; [reflexivity|].
  exact (Hreturns _ Hrun).
Defined.


Lemma processing_orders_example :
  greedy_until toy_lm [("ab", UntilStr "."); ("a", UntilStr ".")] []
    = Ok ([Some ""; Some ""], [("a", ["."], ""); ("ab", ["."], "")])
  /\ exists entries : list hook_entry,
       [("a", ["."], ""); ("ab", ["."], "")] = [] ++ entries
       /\ entries.*1.*1
          = (greedy_order toy_lm [("ab", UntilStr "."); ("a", UntilStr ".")]).*1.
Proof.
  assert (Hrun : greedy_until toy_lm
                   [("ab", UntilStr "."); ("a", UntilStr ".")] []
                 = Ok ([Some ""; Some ""],
                       [("a", ["."], ""); ("ab", ["."], "")])).
  { reflexivity. }
  split; [exact Hrun|].
  destruct (processing_orders toy_lm []
              [("ab", UntilStr "."); ("a", UntilStr ".")])
    as (_ & _ & _ & _ & _ & _ & _ & _ & Hhook).
  exact (Hhook [] _ Hrun).
Defined.

(** * Further properties *)

(** ** The input keeps the continuation *)

Section Alignment.
Context {R : Type}.
Variable self : HuggingfaceCausalLM R.

(** X1: for a request that passes the assertions, the truncation from the
    left removes context tokens only and keeps at least one of them: the
    truncated sequence is a non-empty suffix of the context followed by the
    whole continuation, the model input is that suffix followed by the
    continuation without its last token, and the token that follows
    position [inplen - contlen + k] of the truncated sequence is token [k]
    of the continuation. *)
Theorem truncation_keeps_the_continuation (x : encoded_request) :
  valid_request self x ->
  exists kept,
    kept <> []
    /\ kept `suffix_of` context_of x
    /\ truncate_left (max_length self + 1) (context_of x ++ continuation_of x)
       = kept ++ continuation_of x
    /\ model_input (max_length self) (context_of x) (continuation_of x)
       = kept ++ take (length (continuation_of x) - 1) (continuation_of x)
    /\ input_length self x - len (continuation_of x) = len kept - 1
    /\ (forall k tok,
          continuation_of x !! k = Some tok ->
          (kept ++ continuation_of x)
            !! (Z.to_nat (input_length self x - len (continuation_of x)) + k + 1)%nat
          = Some tok).
Proof.
  intros (Hctx & Hcont & Hmax).
  set (ctx := context_of x) in *. set (cont := continuation_of x) in *.
  unfold len in Hctx, Hcont, Hmax.
  set (d := (length (ctx ++ cont) - Z.to_nat (max_length self + 1))%nat).
  assert (Hd : (d < length ctx)%nat).
  { unfold d. rewrite length_app. lia. }
  assert (Htrunc : truncate_left (max_length self + 1) (ctx ++ cont)
                   = drop d ctx ++ cont).
  { unfold truncate_left. fold d. rewrite drop_app_le by lia. done. }
  assert (Hkept : length (drop d ctx) = (length ctx - d)%nat)
    by apply length_drop.
  assert (Hinput : model_input (max_length self) ctx cont
                   = drop d ctx ++ take (length cont - 1) cont).
  { rewrite model_input_spec by lia. unfold encode_spec, drop_final.
    rewrite Htrunc, length_app, take_app, Hkept.
    rewrite take_ge by (rewrite Hkept; lia).
    f_equal. f_equal. lia. }
  assert (Hlen : input_length self x - len cont = len (drop d ctx) - 1).
  { unfold input_length. fold ctx cont. rewrite Hinput.
    unfold len. rewrite length_app, length_take, Hkept. lia. }
  exists (drop d ctx). repeat split; try done.
  - intros Hnil. rewrite Hnil in Hkept. simpl in Hkept. lia.
  - apply suffix_drop.
  - intros k tok Hk. rewrite Hlen. unfold len. rewrite Hkept.
    rewrite lookup_app_r by (rewrite Hkept; lia).
    rewrite Hkept. rewrite <- Hk. f_equal. lia.
Qed.
End Alignment.

(** ** What the extractor needs in order to return *)

Lemma py_slice_length {A : Type} (lo hi : Z) (l : list A) :
  len (py_slice (Some lo) (Some hi) l)
  = Z.max 0 (py_bound (len l) hi - py_bound (len l) lo).
Proof.
  unfold py_slice, len. rewrite length_take, length_drop.
  unfold py_bound. pose proof (len_nonneg l) as Hl. unfold len in Hl.
  destruct (lo <? 0) eqn:Hlo; destruct (hi <? 0) eqn:Hhi; lia.
Qed.

Lemma mapM_Ok_lookup_inv {A B : Type} (f : A -> result B) (l : list A)
    (k : list B) (i : nat) (x : A) :
  mapM f l = Ok k -> l !! i = Some x ->
  exists y, k !! i = Some y /\ f x = Ok y.
Proof.
  revert k i. induction l as [|z l IH]; intros k i Hk Hi; [done|].
  cbn [mapM] in Hk. apply bind_Ok in Hk as (y & Hy & Hk).
  apply bind_Ok in Hk as (k' & Hk' & Hk). injection Hk as <-.
  destruct i as [|i]; simpl in Hi.
  - injection Hi as <-. eauto.
  - simpl. by apply IH.
Qed.

Lemma mapM_Ok_length {A B : Type} (f : A -> result B) (l : list A) (k : list B) :
  mapM f l = Ok k -> length k = length l.
Proof.
  revert k. induction l as [|z l IH]; intros k Hk; cbn [mapM] in Hk.
  - by injection Hk as <-.
  - apply bind_Ok in Hk as (y & Hy & Hk).
    apply bind_Ok in Hk as (k' & Hk' & Hk). injection Hk as <-.
    simpl. by rewrite (IH k').
Qed.

Section ExtractReturns.
Context {R : Type} `{Numerics R}.

Lemma extract_Ok_gather (logits : list (list R)) (inplen : Z)
    (cont_toks : list Z) (r : R * bool) :
  extract logits inplen cont_toks = Ok r ->
  exists gathered,
    gather (py_slice (Some (inplen - len cont_toks)) (Some inplen) logits)
           cont_toks = Ok gathered.
Proof.
  unfold extract. intros Hr.
  apply bind_Ok in Hr as (greedy_tokens & _ & Hr).
  apply bind_Ok in Hr as (max_equal & _ & Hr).
  apply bind_Ok in Hr as (gathered & Hg & _). eauto.
Qed.

Lemma extract_Ok_span (logits : list (list R))
    (inplen : Z) (cont_toks : list Z) (r : R * bool) :
  0 <= inplen -> cont_toks <> [] ->
  extract logits inplen cont_toks = Ok r ->
  len cont_toks <= inplen <= len logits.
Proof.
  intros Hin Hne Hr.
  apply extract_Ok_gather in Hr as (gathered & Hg).
  unfold gather in Hg.
  destruct (Z.leb_spec (len cont_toks)
              (len (py_slice (Some (inplen - len cont_toks)) (Some inplen)
                      logits))) as [Hle|]; [|done].
  rewrite py_slice_length in Hle.
  assert (0 < len cont_toks).
  { unfold len. destruct cont_toks; [done | simpl; lia]. }
  pose proof (len_nonneg logits). unfold py_bound in Hle.
  destruct (inplen - len cont_toks <? 0) eqn:Hlo;
    destruct (inplen <? 0) eqn:Hhi; lia.
Qed.

(** X2: the extractor returns only when the whole span lies inside the
    row of logits: for a non-empty continuation and a non-negative input
    length, an answer means that [contlen <= inplen <= len(logits)], so no
    answer is ever computed from a slice that Python clipped at the end of
    the row or wrapped around from a negative start. *)
Theorem extract_returns_only_inside_the_row (logits : list (list R))
    (inplen : Z) (cont_toks : list Z) (r : R * bool) :
  0 <= inplen -> cont_toks <> [] ->
  extract logits inplen cont_toks = Ok r ->
  len cont_toks <= inplen <= len logits.
Proof. apply extract_Ok_span. Qed.

(** X3: the extractor returns only when every continuation token indexes
    the vocabulary of its position: a token that is negative or not below
    the size of the distribution at its position makes the call raise. *)
Theorem extract_returns_only_for_vocabulary_tokens (logits : list (list R))
    (inplen : Z) (cont_toks : list Z) (r : R * bool) :
  0 <= inplen ->
  extract logits inplen cont_toks = Ok r ->
  forall k tok, cont_toks !! k = Some tok ->
    0 <= tok < len (distribution logits inplen cont_toks k).
Proof.
  intros Hin Hr k tok Hk.
  assert (Hne : cont_toks <> []) by (by intros ->).
  pose proof (extract_Ok_span _ _ _ _ Hin Hne Hr) as Hspan.
  apply extract_Ok_gather in Hr as (gathered & Hg).
  rewrite span_is_distributions in Hg by done.
  unfold gather in Hg.
  destruct (len cont_toks <=? len _); [|done].
  assert (Hzip : zip (distribution logits inplen cont_toks
                        <$> seq 0 (length cont_toks)) cont_toks !! k
                 = Some (distribution logits inplen cont_toks k, tok)).
  { apply lookup_zip_with_Some. eexists _, _. split; [done|].
    split; [|done]. rewrite list_lookup_fmap.
    rewrite lookup_seq_lt by (by eapply lookup_lt_Some). done. }
  destruct (mapM_Ok_lookup_inv _ _ _ _ _ Hg Hzip) as (v & _ & Hv).
  simpl in Hv. unfold tensor_at in Hv.
  destruct (Z.ltb_spec tok 0); [done|].
  destruct (distribution logits inplen cont_toks k !! Z.to_nat tok)
    eqn:Hrow; [|done].
  apply lookup_lt_Some in Hrow. unfold len. lia.
Qed.

(** The entry that [argmax_from] picks: no entry is above it. *)
Lemma argmax_from_spec (row : list R) (best_i i : Z) (best : R) :
  (forall a, fltb a a = false) ->
  (forall a b c, fltb a b = true -> fltb b c = true -> fltb a c = true) ->
  exists v,
    ((argmax_from best_i best i row = best_i /\ v = best)
     \/ (exists n, row !! n = Some v
                   /\ argmax_from best_i best i row = i + Z.of_nat n))
    /\ fltb v best = false
    /\ (forall y, y ∈ row -> fltb v y = false)
    /\ (v = best \/ fltb best v = true).
Proof.
  intros Hirr Htrans. revert best_i i best.
  induction row as [|x row IH]; intros best_i i best; simpl.
  { exists best. repeat split; auto. intros y Hy. by apply elem_of_nil in Hy. }
  destruct (fltb best x) eqn:Hbx.
  - destruct (IH i (i + 1) x) as (v & Hpos & Hvx & Hrow & Hchain).
    assert (Hbv : fltb best v = true).
    { destruct Hchain as [->|Hxv]; [done | by eapply Htrans]. }
    exists v. split; [|split; [|split]].
    + right. destruct Hpos as [[-> ->]|(n & Hn & ->)].
      * exists 0%nat. split; [done | lia].
      * exists (S n). split; [done | lia].
    + destruct (fltb v best) eqn:Hvb; [|done].
      rewrite (Htrans v best x Hvb Hbx) in Hvx. done.
    + intros y [->|Hy]%elem_of_cons; auto.
    + by right.
  - destruct (IH best_i (i + 1) best) as (v & Hpos & Hvb & Hrow & Hchain).
    exists v. split; [|split; [|split]]; try done.
    + destruct Hpos as [[-> ->]|(n & Hn & ->)]; [by left|].
      right. exists (S n). split; [done | lia].
    + intros y [->|Hy]%elem_of_cons; [|auto].
      destruct Hchain as [->|Hbv]; [done|].
      destruct (fltb v x) eqn:Hvx; [|done].
      rewrite (Htrans best v x Hbv Hvx) in Hbx. done.
Qed.

Lemma argmax_spec (row : list R) (j : Z) :
  (forall a, fltb a a = false) ->
  (forall a b c, fltb a b = true -> fltb b c = true -> fltb a c = true) ->
  argmax row = Ok j ->
  0 <= j
  /\ exists v, row !! Z.to_nat j = Some v
              /\ forall y, y ∈ row -> fltb v y = false.
Proof.
  intros Hirr Htrans Hj. destruct row as [|x row]; [done|].
  simpl in Hj. injection Hj as <-.
  destruct (argmax_from_spec row 0 1 x Hirr Htrans)
    as (v & Hpos & Hvx & Hrow & _).
  destruct Hpos as [[-> ->]|(n & Hn & ->)].
  - split; [lia|]. exists x. split; [done|].
    intros y [->|Hy]%elem_of_cons; auto.
  - split; [lia|]. exists v. split.
    + by replace (Z.to_nat (1 + Z.of_nat n)) with (S n) by lia.
    + intros y [->|Hy]%elem_of_cons; auto.
Qed.

(** X4: when the comparison of the scores is irreflexive and transitive,
    a true greedy flag means that at every position of the span no entry of
    the distribution is strictly above the entry of the continuation token. *)
Theorem greedy_flag_means_maximal (logits : list (list R)) (inplen : Z)
    (cont_toks : list Z) (log_prob : R) :
  (forall a, fltb a a = false) ->
  (forall a b c, fltb a b = true -> fltb b c = true -> fltb a c = true) ->
  0 <= inplen ->
  extract logits inplen cont_toks = Ok (log_prob, true) ->
  forall k tok, cont_toks !! k = Some tok ->
    exists v,
      distribution logits inplen cont_toks k !! Z.to_nat tok = Some v
      /\ forall y, y ∈ distribution logits inplen cont_toks k ->
                   fltb v y = false.
Proof.
  intros Hirr Htrans Hin Hr k tok Hk.
  assert (Hne : cont_toks <> []) by (by intros ->).
  pose proof (extract_Ok_span _ _ _ _ Hin Hne Hr) as Hspan.
  unfold extract in Hr. rewrite span_is_distributions in Hr by done.
  apply bind_Ok in Hr as (greedy_tokens & Hgt & Hr).
  apply bind_Ok in Hr as (max_equal & Heq & Hr).
  apply bind_Ok in Hr as (gathered & _ & Hr). injection Hr as _ ->.
  assert (Hlen : length greedy_tokens = length cont_toks).
  { by rewrite (mapM_Ok_length _ _ _ Hgt), length_fmap, length_seq. }
  rewrite eq_all_same_length in Heq by done. injection Heq as Heq.
  rewrite forallb_zip_lookup in Heq by done.
  specialize (Heq k tok Hk).
  assert (Hrow : (distribution logits inplen cont_toks
                    <$> seq 0 (length cont_toks)) !! k
                 = Some (distribution logits inplen cont_toks k)).
  { rewrite list_lookup_fmap.
    by rewrite lookup_seq_lt by (by eapply lookup_lt_Some). }
  destruct (mapM_Ok_lookup_inv _ _ _ _ _ Hgt Hrow) as (g & Hg & Harg).
  assert (g = tok) as -> by congruence.
  by destruct (argmax_spec _ _ Hirr Htrans Harg) as (_ & v & Hv & Hmax);
    exists v.
Qed.
End ExtractReturns.

(** ** Every request gets an answer *)

Section ScatterZip.
Context {A V : Type}.

Lemma scatter_zip_other (l : list (nat * A)) (vs : list V)
    (init : list (option V)) (i : nat) :
  i ∉ l.*1 ->
  foldl (fun res '((ind, _), v) => <[ind := Some v]> res) init (zip l vs) !! i
  = init !! i.
Proof.
  revert vs init. induction l as [|[j y] l IH]; intros [|v vs] init Hi;
    simpl; try done.
  simpl in Hi. apply not_elem_of_cons in Hi as [Hne Hi].
  rewrite IH by done. by apply list_lookup_insert_ne.
Qed.

(** The result at sorted position [k] lands at the original index of the
    item at that position. *)
Lemma scatter_zip_lookup (l : list (nat * A)) (vs : list V)
    (init : list (option V)) (k i : nat) (x : A) (v : V) :
  NoDup l.*1 -> l !! k = Some (i, x) -> vs !! k = Some v ->
  (i < length init)%nat ->
  foldl (fun res '((ind, _), v) => <[ind := Some v]> res) init (zip l vs) !! i
  = Some (Some v).
Proof.
  revert vs init k. induction l as [|[j y] l IH]; intros vs init k Hnd Hl Hv Hi;
    [done|].
  destruct vs as [|w vs]; [done|].
  simpl in *. apply NoDup_cons in Hnd as [Hj Hnd].
  destruct k as [|k]; simpl in *.
  - injection Hl as -> ->. injection Hv as ->.
    rewrite scatter_zip_other by done. by apply list_lookup_insert_eq.
  - eapply IH; [done..|]. by rewrite length_insert.
Qed.
End ScatterZip.

Section AllAnswered.
Context {R : Type} `{Numerics R}.
Variable self : HuggingfaceCausalLM R.
Hypothesis self_rows : row_preserving self.

Lemma score_rows_length
    (rows : list (encoded_request * (list (list R) * (list Z * (Z * list Z)))))
    (res res' : list (R * bool)) :
  foldlM score_row res rows = Ok res' ->
  length res' = (length res + length rows)%nat.
Proof.
  revert res. induction rows as [|row rows IH]; intros res; cbn [foldlM].
  - intros [= <-]. simpl. lia.
  - intros Hrun. apply bind_Ok in Hrun as (res1 & Hrow & Hrest).
    apply IH in Hrest. rewrite Hrest.
    destruct row as (? & ? & ? & ? & ?). simpl in Hrow.
    apply bind_Ok in Hrow as (a & _ & Hrow). injection Hrow as <-.
    rewrite length_app. simpl. lia.
Qed.

Lemma process_chunk_length (chunk : list encoded_request)
    (res res' : list (R * bool)) :
  process_chunk self res chunk = Ok res' ->
  length res' = (length res + length chunk)%nat.
Proof.
  unfold process_chunk. intros Hrun.
  apply bind_Ok in Hrun as (b & Hb & Hrun).
  apply bind_Ok in Hrun as (batched & Hcat & Hrun).
  apply bind_Ok in Hrun as (out & Hout & Hrun).
  destruct chunk as [|x chunk].
  { injection Hb as <-. done. }
  apply assemble_cons in Hb as [_ ->]. cbn [inps inplens cont_toks_list] in *.
  assert (batched = padded_row self (input_length self x) <$> x :: chunk) as ->.
  { unfold torch_cat in Hcat. rewrite fmap_cons in Hcat.
    by destruct (forallb _ _); [injection Hcat as <-|]. }
  apply self_rows in Hout. rewrite length_fmap in Hout.
  apply score_rows_length in Hrun. rewrite Hrun.
  rewrite !length_zip_with, length_map, !length_fmap. lia.
Qed.

Lemma process_chunks_length (cs : list (list encoded_request))
    (res res' : list (R * bool)) :
  foldlM (process_chunk self) res cs = Ok res' ->
  length res' = (length res + length (concat cs))%nat.
Proof.
  revert res. induction cs as [|chunk cs IH]; intros res; cbn [foldlM].
  - intros [= <-]. simpl. lia.
  - intros Hrun. apply bind_Ok in Hrun as (res1 & Hchunk & Hrest).
    apply IH in Hrest. apply process_chunk_length in Hchunk.
    simpl. rewrite length_app. lia.
Qed.

(** X5: when the model returns one row of logits per row of the batch, a
    call that returns has an answer for every request: the list has the
    length of the requests and no slot is Python's [None]. *)
Theorem every_request_is_answered (requests : list encoded_request)
    (resps : list (option (R * bool))) :
  _loglikelihood_tokens self requests = Ok resps ->
  length resps = length requests
  /\ forall i, (i < length requests)%nat ->
       exists answer, resps !! i = Some (Some answer).
Proof.
  intros Hcall. unfold _loglikelihood_tokens in Hcall.
  apply bind_Ok in Hcall as (res & Hres & Hcall). injection Hcall as <-.
  split; [by rewrite get_original_length|].
  intros i Hi.
  apply process_chunks_length in Hres. rewrite chunks_concat in Hres.
  simpl in Hres.
  assert (Hperm : get_reordered (Reorderer_init _collate requests) ≡ₚ requests)
    by apply get_reordered_perm.
  rewrite (Permutation_length Hperm) in Hres.
  unfold get_original, Reorderer_init, get_reordered in *. simpl in *.
  set (sorted := stable_sort _collate (enumerate_from 0 requests)) in *.
  assert (Hsorted : sorted ≡ₚ enumerate_from 0 requests)
    by apply stable_sort_perm.
  destruct (lookup_lt_is_Some_2 requests i Hi) as [x Hx].
  assert (Hin : (i, x) ∈ sorted).
  { rewrite Hsorted. apply elem_of_enumerate_from.
    split; [lia|]. by rewrite Nat.sub_0_r. }
  apply list_elem_of_lookup in Hin as [k Hk].
  assert (Hklt : (k < length res)%nat).
  { apply lookup_lt_Some in Hk. rewrite Hres.
    rewrite <- (length_fmap snd sorted) in Hk.
    by rewrite <- (Permutation_length Hperm). }
  destruct (lookup_lt_is_Some_2 res k Hklt) as [answer Hanswer].
  exists answer. eapply scatter_zip_lookup; [|done..|].
  - rewrite Hsorted, enumerate_from_fst. apply NoDup_seq.
  - by rewrite length_replicate.
Qed.
End AllAnswered.

(** ** Greedy generation *)

Section Greedy.
Context {R : Type}.
Variable self : HuggingfaceCausalLM R.

(** The loop body of [greedy_until], with the context of lines 299-301
    named. *)
Lemma greedy_step_unfold (res : list string) (hook : list hook_entry)
    (context : string) (until : until_arg) :
  greedy_step self (res, hook) (context, until)
  = (first ← py_first (until_list until);
     primary_until ← unpack_single (tok_encode self first);
     cont ← _model_generate self [generation_context self context]
              (len (generation_context self context) + max_gen_toks)
              primary_until;
     cont0 ← py_first cont;
     s ← truncate_at_stops
           (tok_decode self
              (py_slice (Some (len (generation_context self context))) None
                 cont0))
           (until_list until);
     Ok (res ++ [s], hook ++ [(context, until_list until, s)])).
Proof. reflexivity. Qed.

(** X6: the context of a generation is cut from the left so that the
    context and the new tokens fit the model only when [max_length] exceeds
    [max_gen_toks]: then it is the suffix of the encoded context of at most
    [max_length - max_gen_toks] tokens, the whole of it when that fits. When
    [max_length] equals [max_gen_toks] the slice starts at 0 and nothing is
    cut, and when it is smaller the first [max_gen_toks - max_length] tokens
    are dropped and the rest is kept, however long. *)
Theorem generation_context_bound (context : string) :
  (max_gen_toks < max_length self ->
   generation_context self context `suffix_of` tok_encode self context
   /\ len (generation_context self context)
      = Z.min (len (tok_encode self context)) (max_length self - max_gen_toks)
   /\ len (generation_context self context) + max_gen_toks <= max_length self
   /\ (len (tok_encode self context) + max_gen_toks <= max_length self ->
       generation_context self context = tok_encode self context))
  /\ (max_length self = max_gen_toks ->
      generation_context self context = tok_encode self context)
  /\ (max_length self < max_gen_toks ->
      generation_context self context
      = drop (Z.to_nat (max_gen_toks - max_length self))
             (tok_encode self context)).
Proof.
  unfold generation_context. set (toks := tok_encode self context).
  split; [|split].
  - intros Hbig.
    replace (max_gen_toks - max_length self)
      with (- (max_length self - max_gen_toks)) by lia.
    rewrite py_slice_last_n by lia.
    split; [apply suffix_drop|].
    assert (Hlen : len (drop (length toks
                              - Z.to_nat (max_length self - max_gen_toks)) toks)
                   = Z.min (len toks) (max_length self - max_gen_toks)).
    { unfold len. rewrite length_drop. lia. }
    split; [exact Hlen|]. split; [lia|].
    intros Hfit. unfold len in Hfit.
    replace (length toks - Z.to_nat (max_length self - max_gen_toks))%nat
      with 0%nat by lia.
    done.
  - intros ->. rewrite Z.sub_diag. unfold py_slice, py_bound. simpl.
    rewrite Z.min_l by apply len_nonneg. rewrite Z.sub_0_r.
    unfold len. rewrite Nat2Z.id. apply firstn_all.
  - intros Hsmall. unfold py_slice, py_bound.
    replace (max_gen_toks - max_length self <? 0) with false by lia.
    rewrite take_ge; [|rewrite length_drop; unfold len; lia].
    unfold len.
    destruct (Z.min_spec (max_gen_toks - max_length self)
                (Z.of_nat (length toks))) as [[_ ->]|[Hge ->]]; [done|].
    rewrite Nat2Z.id. rewrite !drop_ge by lia. done.
Qed.


(** A request whose stop strings are malformed stops the loop body. *)
Lemma greedy_step_malformed (st : list string * list hook_entry)
    (x : string * until_arg) :
  until_list x.2 = []
  \/ (exists first rest, until_list x.2 = first :: rest
                         /\ length (tok_encode self first) <> 1%nat)
  \/ EmptyString ∈ until_list x.2 ->
  exists e, greedy_step self st x = Raise e.
Proof.
  destruct st as [res hook], x as [context until].
  rewrite greedy_step_unfold. cbn [snd].
  intros [Hnil|[(first & rest & Hu & Htok)|Hempty]].
  - rewrite Hnil. simpl. eauto.
  - rewrite Hu. simpl.
    destruct (tok_encode self first) as [|t [|t' toks]]; simpl; eauto. done.
  - destruct (py_first (until_list until)) as [first|e]; simpl; [|eauto].
    destruct (unpack_single _) as [primary_until|e]; simpl; [|eauto].
    destruct (_model_generate _ _ _ _) as [cont|e]; simpl; [|eauto].
    destruct (py_first cont) as [cont0|e]; simpl; [|eauto].
    destruct (truncate_at_stops _ _) as [s|e] eqn:Hs; simpl; [|eauto].
    apply truncate_at_stops_Ok in Hs. rewrite Forall_forall in Hs.
    by destruct (Hs _ Hempty).
Qed.

(** X7: a generation request is malformed when its stop list is empty,
    when its first stop string does not encode to exactly one token, or
    when one of its stop strings is empty; the loop body then raises
    ([IndexError] in the first case and [ValueError] in the second, before
    the model is called), and a call of [greedy_until] whose requests
    contain such a request returns nothing. *)
Theorem malformed_stops_abort_generation
    (requests : list (string * until_arg)) (x : string * until_arg) :
  x ∈ requests ->
  until_list x.2 = []
  \/ (exists first rest, until_list x.2 = first :: rest
                         /\ length (tok_encode self first) <> 1%nat)
  \/ EmptyString ∈ until_list x.2 ->
  (until_list x.2 = [] ->
   forall st, greedy_step self st x = Raise IndexError)
  /\ (forall first rest,
        until_list x.2 = first :: rest ->
        length (tok_encode self first) <> 1%nat ->
        forall st, greedy_step self st x = Raise ValueError)
  /\ (forall hook, exists e, greedy_until self requests hook = Raise e)
  /\ (forall hook r, greedy_until self requests hook <> Ok r).
Proof.
  intros Hin Hbad.
  assert (Hraise : forall hook, exists e,
            greedy_until self requests hook = Raise e).
  { intros hook. unfold greedy_until.
    assert (Hin' : x ∈ get_reordered
                         (Reorderer_init (_collate_greedy self) requests)).
    { by rewrite get_reordered_perm. }
    destruct (foldlM_Raise_elem (greedy_step self) _ x Hin'
                (fun st => greedy_step_malformed st x Hbad) ([], hook))
      as [e He].
    exists e. by rewrite He. }
  split; [|split; [|split]]; [| |done|].
  - intros Hnil [res hook]. destruct x as [context until]. cbn [snd] in *.
    rewrite greedy_step_unfold, Hnil. done.
  - intros first rest Hu Htok [res hook]. destruct x as [context until].
    cbn [snd] in *. rewrite greedy_step_unfold, Hu. simpl.
    by destruct (tok_encode self first) as [|t [|t' toks]].
  - intros hook r Hr. destruct (Hraise hook) as [e He]. congruence.
Qed.


End Greedy.

(** ** The truncated text *)

Lemma prefix_nil_l (s : string) : String.prefix EmptyString s = true.
Proof. by destruct s. Qed.

Lemma prefix_cons (c d : Ascii.ascii) (p s : string) :
  String.prefix (String c p) (String d s) = true <->
  c = d /\ String.prefix p s = true.
Proof.
  simpl. destruct (Ascii.ascii_dec c d) as [->|Hne]; [tauto|].
  split; [done | by intros [? _]].
Qed.

Lemma prefix_trans (a b c : string) :
  String.prefix a b = true -> String.prefix b c = true ->
  String.prefix a c = true.
Proof.
  revert b c. induction a as [|x a IH]; intros b c Hab Hbc;
    [apply prefix_nil_l|].
  destruct b as [|y b]; [done|]. destruct c as [|z c]; [done|].
  apply prefix_cons in Hab as [-> Hab]. apply prefix_cons in Hbc as [-> Hbc].
  apply prefix_cons. split; [done|]. by eapply IH.
Qed.

Lemma cut_before_first_prefix (s t : string) :
  String.prefix (cut_before_first s t) s = true.
Proof.
  induction s as [|c s IH].
  - unfold cut_before_first. by destruct (first_occurrence t EmptyString) as [[|i]|].
  - rewrite cut_before_first_cons.
    destruct (String.prefix t (String c s)); [apply prefix_nil_l|].
    by apply prefix_cons.
Qed.

Lemma absent_nonempty (t s : string) : absent t s -> t <> EmptyString.
Proof.
  unfold absent. intros Habs ->. destruct s; simpl in Habs; done.
Qed.

Lemma absent_cons (t : string) (c : Ascii.ascii) (s : string) :
  absent t (String c s) <->
  String.prefix t (String c s) = false /\ absent t s.
Proof.
  unfold absent. rewrite first_occurrence_cons.
  destruct (String.prefix t (String c s)); [by split; [|intros [? _]]|].
  destruct (first_occurrence t s); simpl; split; (done || by intros [_ ?]) || auto.
Qed.

(** A stop string that does not occur in a text occurs in none of its
    prefixes. *)
Lemma absent_prefix (t p s : string) :
  absent t s -> String.prefix p s = true -> absent t p.
Proof.
  revert s. induction p as [|c p IH]; intros s Habs Hp.
  - unfold absent. apply first_occurrence_nil. by eapply absent_nonempty.
  - destruct s as [|d s]; [done|]. apply prefix_cons in Hp as [<- Hp].
    apply absent_cons in Habs as [Hts Habs]. apply absent_cons. split.
    + destruct (String.prefix t (String c p)) eqn:Htp; [|done].
      rewrite (prefix_trans t (String c p) (String c s)) in Hts; [done..|].
      by apply prefix_cons.
    + by eapply IH.
Qed.

Lemma cut_before_first_absent (s t : string) :
  t <> EmptyString -> absent t (cut_before_first s t).
Proof.
  intros Ht. induction s as [|c s IH].
  - rewrite cut_before_first_nil by done. by apply first_occurrence_nil.
  - rewrite cut_before_first_cons.
    destruct (String.prefix t (String c s)) eqn:Hts.
    + by apply first_occurrence_nil.
    + apply absent_cons. split; [|done].
      destruct (String.prefix t (String c (cut_before_first s t))) eqn:Htp;
        [|done].
      rewrite (prefix_trans t (String c (cut_before_first s t)) (String c s))
        in Hts; [done..|].
      apply prefix_cons. split; [done|]. apply cut_before_first_prefix.
Qed.

Lemma sequential_truncation_prefix_absent (s : string) (stops : list string) :
  Forall (fun t => t <> EmptyString) stops ->
  String.prefix (sequential_truncation s stops) s = true
  /\ Forall (fun t => absent t (sequential_truncation s stops)) stops.
Proof.
  intros Hne. revert s. unfold sequential_truncation.
  induction Hne as [|t stops Ht _ IH]; intros s; simpl.
  - split; [|constructor]. induction s as [|c s IHs]; [done|].
    by apply prefix_cons.
  - destruct (IH (cut_before_first s t)) as [Hp Habs]. split.
    + eapply prefix_trans; [exact Hp | apply cut_before_first_prefix].
    + constructor; [|done].
      eapply absent_prefix; [by apply cut_before_first_absent | done].
Qed.

(** X9: the text left by the loop over the stop strings is a prefix of the
    generated text and contains none of the stop strings, whatever their
    order in the list. *)
Theorem truncated_text_has_no_stop_string (s out : string)
    (until : list string) :
  truncate_at_stops s until = Ok out ->
  String.prefix out s = true /\ Forall (fun t => absent t out) until.
Proof.
  intros Hout. pose proof (truncate_at_stops_Ok _ _ _ Hout) as Hne.
  rewrite truncate_at_stops_sequential in Hout by done.
  injection Hout as <-. by apply sequential_truncation_prefix_absent.
Qed.

(** ** The entry points *)

Section EntryPoints.
Context {R : Type} `{Numerics R}.
Variable self : HuggingfaceCausalLM R.

(** A request object whose encoded request fails an assertion makes
    [loglikelihood] raise. *)
Lemma loglikelihood_invalid (heap : gmap positive (Request.t R))
    (objects : list positive) (l : positive) (req : Request.t R) :
  l ∈ objects -> heap !! l = Some req ->
  ~ valid_request self (encode_request self req) ->
  forall r, loglikelihood self heap objects <> Ok r.
Proof.
  intros Hl Hreq Hinv r Hcall. unfold loglikelihood in Hcall.
  apply bind_Ok in Hcall as (new_reqs & Hread & Hcall).
  apply bind_Ok in Hcall as (resps & Hresps & _).
  apply read_requests_Ok in Hread as (new_reqs' & -> & Hall). simpl in Hresps.
  apply list_elem_of_lookup in Hl as [i Hi].
  destruct (Forall2_lookup_l _ _ _ _ _ Hall Hi) as (y & Hy & req' & Hreq' & ->).
  assert (req' = req) as -> by congruence.
  destruct (loglikelihood_tokens_invalid self new_reqs' (encode_request self req))
    as (_ & _ & Hno); [by eapply list_elem_of_lookup_2 | done | by eapply Hno].
Qed.

(** X10: the empty context string is encoded as the end-of-text token, so
    that such a request passes the assertion on the context whatever the
    tokenizer does, and is valid exactly when its continuation encodes to
    between one and [max_length] tokens. A context string that is not empty
    but encodes to no token is not replaced: its request fails the
    assertion and [loglikelihood] does not return. *)
Theorem empty_context_is_end_of_text (continuation : string) :
  context_of (encode_strings self EmptyString continuation)
    = [eot_token_id self]
  /\ (valid_request self (encode_strings self EmptyString continuation)
      <-> 0 < len (tok_encode self continuation) <= max_length self)
  /\ (forall context heap objects l req,
        context <> EmptyString ->
        tok_encode self context = [] ->
        l ∈ objects -> heap !! l = Some req ->
        Request.inps req = (context, continuation) ->
        forall r, loglikelihood self heap objects <> Ok r).
Proof.
  split; [done|]. split.
  - unfold valid_request, encode_strings, encode_request, context_of,
      continuation_of. simpl. unfold len at 1. simpl. split.
    + by intros (_ & ? & ?).
    + intros [? ?]. split; [lia|]. done.
  - intros context heap objects l req Hne Htok Hl Hreq Hinps.
    apply (loglikelihood_invalid heap objects l req Hl Hreq).
    unfold valid_request, encode_request, context_of. rewrite Hinps.
    destruct (String.eqb_spec context EmptyString) as [->|_]; [done|].
    simpl. rewrite Htok. unfold len. simpl. lia.
Qed.

Variable get_rolling_token_windows :
  list Z -> Z -> Z -> Z -> result (list (list Z * list Z)).
Variable make_disjoint_window : list Z * list Z -> list Z * list Z.

(** X11: empty inputs are answered without the model, that is, in the
    same way by every model: no request gives no answer, [loglikelihood]
    of no request object leaves the heap as it is, a document that is split
    into no window has the total zero, and [loglikelihood_rolling] of no
    document stores the empty list. *)
Theorem empty_inputs_need_no_model :
  _loglikelihood_tokens self [] = Ok []
  /\ (forall heap, loglikelihood self heap [] = Ok (heap, tt))
  /\ (forall doc loglikelihoods,
        get_rolling_token_windows (tok_encode self doc) (eot_token_id self)
          (max_length self) 1 = Ok [] ->
        rolling_step self get_rolling_token_windows make_disjoint_window
          loglikelihoods doc = Ok (loglikelihoods ++ [fzero]))
  /\ (forall old,
        loglikelihood_rolling self get_rolling_token_windows
          make_disjoint_window (AttrSequence [] old)
        = Ok (AttrSequence [] (Some []), tt)).
Proof.
  split; [done|]. split; [done|]. split; [|done].
  intros doc loglikelihoods Hw. unfold rolling_step, rolling_token_windows.
  rewrite Hw. done.
Qed.

(** X12: for a causal model, the total of a document whose disjoint
    windows pass the assertions is the sum, in the order of the windows, of
    the log-probabilities that the disjoint windows get when each is scored
    alone; the reordering and the batching of the windows do not change
    it. *)
Theorem rolling_total_of_windows_scored_alone (next : list Z -> list R)
    (answer : encoded_request -> R * bool) (doc : string)
    (raw : list (list Z * list Z)) (loglikelihoods : list R) :
  causal_backend self next ->
  get_rolling_token_windows (tok_encode self doc) (eot_token_id self)
    (max_length self) 1 = Ok raw ->
  Forall (fun w => valid_request self (window_request make_disjoint_window w))
         raw ->
  Forall (fun w => score_alone self (window_request make_disjoint_window w)
                   = Ok [answer (window_request make_disjoint_window w)]) raw ->
  rolling_step self get_rolling_token_windows make_disjoint_window
    loglikelihoods doc
  = Ok (loglikelihoods
          ++ [foldl fadd fzero
                ((fst ∘ answer ∘ window_request make_disjoint_window)
                   <$> raw)]).
Proof.
  intros Hcausal Hraw Hvalid Halone. unfold rolling_step.
  rewrite rolling_token_windows_eq, Hraw, !bind_Ok_l. cbn beta.
  rewrite (loglikelihood_tokens_alone self next Hcausal answer)
    by (by apply Forall_fmap).
  rewrite bind_Ok_l.
  assert (Hlps : mapM answer_log_prob
                   (Some ∘ answer <$> (window_request make_disjoint_window
                                         <$> raw))
                 = Ok (answer <$> (window_request make_disjoint_window
                                     <$> raw)).*1).
  { apply mapM_answer_log_prob. eexists. split; [|done].
    by rewrite <- !list_fmap_compose. }
  rewrite Hlps, bind_Ok_l. unfold py_sum.
  by rewrite <- !list_fmap_compose.
Qed.

Lemma read_requests_all (heap : gmap positive (Request.t R))
    (objects : list positive) (reqs : list (Request.t R))
    (acc : list encoded_request) :
  Forall2 (fun l req => heap !! l = Some req) objects reqs ->
  foldlM (fun new_reqs l =>
            req ← read_request heap l;
            Ok (new_reqs ++ [encode_request self req])) acc objects
  = Ok (acc ++ (encode_request self <$> reqs)).
Proof.
  intros Hall. revert acc.
  induction Hall as [|l req objects reqs Hl _ IH]; intros acc; cbn [foldlM].
  - by rewrite app_nil_r.
  - assert (Hr : read_request heap l = Ok req).
    { unfold read_request. by rewrite Hl. }
    cbn beta. rewrite Hr. simpl. rewrite IH. by rewrite <- app_assoc.
Qed.

(** X13: for a causal model, [loglikelihood] of distinct request objects
    whose encoded requests pass the assertions returns, and leaves in the
    [resps] slot of every object the answer that its own request gets when
    it is scored alone, with [inps] as it was. *)
Theorem loglikelihood_writes_the_answers_scored_alone
    (next : list Z -> list R) (answer : encoded_request -> R * bool)
    (heap : gmap positive (Request.t R)) (objects : list positive)
    (reqs : list (Request.t R)) :
  causal_backend self next ->
  NoDup objects ->
  Forall2 (fun l req => heap !! l = Some req) objects reqs ->
  Forall (fun req => valid_request self (encode_request self req)) reqs ->
  Forall (fun req => score_alone self (encode_request self req)
                     = Ok [answer (encode_request self req)]) reqs ->
  exists heap',
    loglikelihood self heap objects = Ok (heap', tt)
    /\ (forall l, l ∉ objects -> heap' !! l = heap !! l)
    /\ (forall i l req,
          objects !! i = Some l -> reqs !! i = Some req ->
          heap' !! l
          = Some (Request.mk (Request.inps req)
                    (Some (Some (answer (encode_request self req)))))).
Proof.
  intros Hcausal Hnd Hall Hvalid Halone.
  pose proof (Forall2_length _ _ _ Hall) as Hlen.
  eexists. split; [|split].
  - unfold loglikelihood. rewrite (read_requests_all heap objects reqs) by done.
    simpl.
    rewrite (loglikelihood_tokens_alone self next Hcausal answer);
      [reflexivity | by apply Forall_fmap..].
  - intros l Hl. apply write_resps_frame.
    rewrite fst_zip; [done|]. rewrite !length_fmap. lia.
  - intros i l req Hl Hreq.
    rewrite (write_resps_lookup _ _ l
               (Some (answer (encode_request self req)))).
    + by rewrite (Forall2_lookup_lr _ _ _ _ _ _ Hall Hl Hreq).
    + rewrite fst_zip; [done|]. rewrite !length_fmap. lia.
    + apply list_elem_of_lookup. exists i. apply lookup_zip_with_Some.
      eexists _, _. split; [done|]. split; [done|].
      rewrite <- list_fmap_compose, list_lookup_fmap, Hreq. done.
Qed.
End EntryPoints.

(** * Further examples *)

Lemma truncation_keeps_the_continuation_example :
  valid_request toy_lm (None, [1; 2; 3; 0], [1; 2])
  /\ exists kept,
       kept <> []
       /\ model_input (max_length toy_lm) [1; 2; 3; 0] [1; 2]
          = kept ++ take 1 [1; 2].
Proof.
  assert (Hv : valid_request toy_lm (None, [1; 2; 3; 0], [1; 2])).
  { unfold valid_request, len. simpl. lia. }
  split; [exact Hv|].
  destruct (truncation_keeps_the_continuation toy_lm
              (None, [1; 2; 3; 0], [1; 2]) Hv)
    as (kept & Hne & _ & _ & Hinput & _).
  exists kept. split; [exact Hne | exact Hinput].
Defined.

Lemma extract_returns_only_inside_the_row_example :
  extract [[1; 2; 3]; [5; 1; 1]; [0; 9; 2]; [7; 7; 8]] 3 [0; 1] = Ok (14, true)
  /\ len [0; 1] <= 3 <= len [[1; 2; 3]; [5; 1; 1]; [0; 9; 2]; [7; 7; 8]].
Proof.
  assert (Hr : extract [[1; 2; 3]; [5; 1; 1]; [0; 9; 2]; [7; 7; 8]] 3 [0; 1]
               = Ok (14, true)) by reflexivity.
  split; [exact Hr|].
  apply (extract_returns_only_inside_the_row _ 3 [0; 1] (14, true));
    [lia | discriminate | exact Hr].
Defined.

Lemma extract_returns_only_for_vocabulary_tokens_example :
  extract [[1; 2; 3]; [5; 1; 1]; [0; 9; 2]; [7; 7; 8]] 3 [0; 1] = Ok (14, true)
  /\ 0 <= 1 < len (distribution [[1; 2; 3]; [5; 1; 1]; [0; 9; 2]; [7; 7; 8]]
                     3 [0; 1] 1).
Proof.
  assert (Hr : extract [[1; 2; 3]; [5; 1; 1]; [0; 9; 2]; [7; 7; 8]] 3 [0; 1]
               = Ok (14, true)) by reflexivity.
  split; [exact Hr|].
  apply (extract_returns_only_for_vocabulary_tokens _ 3 [0; 1] (14, true));
    [lia | exact Hr | reflexivity].
Defined.

Lemma greedy_flag_means_maximal_example :
  extract [[1; 2; 3]; [5; 1; 1]; [0; 9; 2]; [7; 7; 8]] 3 [0; 1] = Ok (14, true)
  /\ exists v,
       distribution [[1; 2; 3]; [5; 1; 1]; [0; 9; 2]; [7; 7; 8]] 3 [0; 1] 1
         !! Z.to_nat 1 = Some v
       /\ forall y,
            y ∈ distribution [[1; 2; 3]; [5; 1; 1]; [0; 9; 2]; [7; 7; 8]]
                  3 [0; 1] 1 ->
            fltb v y = false.
Proof.
  assert (Hr : extract [[1; 2; 3]; [5; 1; 1]; [0; 9; 2]; [7; 7; 8]] 3 [0; 1]
               = Ok (14, true)) by reflexivity.
  split; [exact Hr|].
  apply (greedy_flag_means_maximal _ 3 [0; 1] 14).
  - intros a. apply Z.ltb_irrefl.
  - intros a b c Hab Hbc. apply Z.ltb_lt. apply Z.ltb_lt in Hab, Hbc. lia.
  - lia.
  - exact Hr.
  - reflexivity.
Defined.

Lemma every_request_is_answered_example :
  row_preserving toy_lm
  /\ forall i, (i < 2)%nat ->
       exists answer,
         [Some (0, false); Some (4, false)] !! i = Some (Some answer).
Proof.
  assert (Hrows : row_preserving toy_lm).
  { intros batch out Hout. injection Hout as <-. apply length_fmap. }
  split; [exact Hrows|].
  apply (every_request_is_answered toy_lm Hrows
           [(None, [1; 2], [3]); (None, [1], [2; 3; 1])]
           [Some (0, false); Some (4, false)]).
  reflexivity.
Defined.

Lemma generation_context_bound_example :
  max_gen_toks < max_length toy_long_lm
  /\ len (generation_context toy_long_lm "abcdef") + max_gen_toks
     <= max_length toy_long_lm.
Proof.
  assert (Hbig : max_gen_toks < max_length toy_long_lm).
  { unfold max_gen_toks. simpl. lia. }
  split; [exact Hbig|].
  destruct (generation_context_bound toy_long_lm "abcdef") as (Hcut & _).
  destruct (Hcut Hbig) as (_ & _ & Hfit & _). exact Hfit.
Defined.

Lemma malformed_stops_abort_generation_example :
  until_list (UntilList []) = []
  /\ exists e, greedy_until toy_lm [("a", UntilList [])] [] = Raise e.
Proof.
  split; [reflexivity|].
  destruct (malformed_stops_abort_generation toy_lm
              [("a", UntilList [])] ("a", UntilList []))
    as (_ & _ & Hraise & _).
  - apply list_elem_of_here.
  - left. reflexivity.
  - exact (Hraise []).
Defined.


Lemma truncated_text_has_no_stop_string_example :
  truncate_at_stops "abc<STOP1>def<STOP2>ghi" ["<STOP2>"; "<STOP1>"] = Ok "abc"
  /\ String.prefix "abc" "abc<STOP1>def<STOP2>ghi" = true
  /\ Forall (fun t => absent t "abc") ["<STOP2>"; "<STOP1>"].
Proof.
  assert (Hout : truncate_at_stops "abc<STOP1>def<STOP2>ghi"
                   ["<STOP2>"; "<STOP1>"] = Ok "abc") by reflexivity.
  split; [exact Hout|].
  exact (truncated_text_has_no_stop_string _ _ _ Hout).
Defined.

Lemma empty_context_is_end_of_text_example :
  0 < len (tok_encode toy_lm "a") <= max_length toy_lm
  /\ valid_request toy_lm (encode_strings toy_lm EmptyString "a").
Proof.
  assert (Hlen : 0 < len (tok_encode toy_lm "a") <= max_length toy_lm).
  { unfold len. simpl. lia. }
  split; [exact Hlen|].
  destruct (empty_context_is_end_of_text toy_lm "a") as (_ & Hvalid & _).
  apply Hvalid. exact Hlen.
Defined.

Lemma empty_inputs_need_no_model_example :
  rolling_step toy_lm (fun _ _ _ _ => Ok []) (fun w => w) [5] "ab"
  = Ok ([5] ++ [fzero]).
Proof.
  destruct (empty_inputs_need_no_model toy_lm (fun _ _ _ _ => Ok [])
              (fun w => w)) as (_ & _ & Hdoc & _).
  apply Hdoc. reflexivity.
Defined.

Lemma rolling_total_of_windows_scored_alone_example :
  causal_backend toy_lm toy_scores
  /\ toy_rolling_windows (tok_encode toy_lm "cbadabc") (eot_token_id toy_lm)
       (max_length toy_lm) 1
     = Ok [([0; 3], [3; 2]); ([2; 1], [1; 0]); ([0; 1], [1; 2]); ([2], [3])]
  /\ window_request toy_disjoint
       <$> [([0; 3], [3; 2]); ([2; 1], [1; 0]); ([0; 1], [1; 2]); ([2], [3])]
     = [(None, [0], [3; 2]); (None, [2], [1; 0]); (None, [0], [1; 2]);
        (None, [2], [3])]
  /\ score_alone toy_lm
       <$> [(None, [0], [3; 2]); (None, [2], [1; 0]); (None, [0], [1; 2]);
            (None, [2], [3])]
     = [Ok [(3, false)]; Ok [(2, false)]; Ok [(1, false)]; Ok [(0, false)]]
  /\ chunks (likelihood_order
               [(None, [0], [3; 2]); (None, [2], [1; 0]); (None, [0], [1; 2]);
                (None, [2], [3])])
            (batch_size toy_lm)
     = [[(None, [0], [1; 2]); (None, [0], [3; 2])];
        [(None, [2], [1; 0]); (None, [2], [3])]]
  /\ rolling_step toy_lm toy_rolling_windows toy_disjoint [7] "cbadabc"
     = Ok ([7] ++ [6]).
Proof.
  assert (Hcausal : causal_backend toy_lm toy_scores).
  { intros batch. reflexivity. }
  split; [exact Hcausal|].
  do 4 (split; [reflexivity|]).
  etransitivity.
  - apply (rolling_total_of_windows_scored_alone toy_lm toy_rolling_windows
             toy_disjoint toy_scores toy_answer "cbadabc"
             [([0; 3], [3; 2]); ([2; 1], [1; 0]); ([0; 1], [1; 2]); ([2], [3])]
             [7]).
    + exact Hcausal.
    + reflexivity.
    + repeat constructor; unfold len; simpl; lia.
    + repeat constructor.
  - reflexivity.
Defined.

Lemma loglikelihood_writes_the_answers_scored_alone_example :
  causal_backend toy_lm toy_scores
  /\ NoDup [3%positive; 1%positive; 2%positive]
  /\ chunks (likelihood_order
               (encode_request toy_lm
                  <$> [Request.mk ("d", "c") None; Request.mk ("a", "bcd") None;
                       Request.mk ("", "ca") None]))
            (batch_size toy_lm)
     = [[(Some ("a", "bcd"), [1], [2; 3; 0]); (Some ("", "ca"), [0], [3; 1])];
        [(Some ("d", "c"), [0], [3])]]
  /\ exists heap',
       loglikelihood toy_lm toy_heap [3%positive; 1%positive; 2%positive]
         = Ok (heap', tt)
       /\ heap' !! 3%positive
          = Some (Request.mk ("d", "c") (Some (Some (2, true))))
       /\ heap' !! 1%positive
          = Some (Request.mk ("a", "bcd") (Some (Some (1, false))))
       /\ heap' !! 2%positive
          = Some (Request.mk ("", "ca") (Some (Some (5, true))))
       /\ heap' !! 5%positive
          = Some (Request.mk ("b", "b") (Some (Some (9, true))))
       /\ heap' !! 4%positive = None.
Proof.
  assert (Hcausal : causal_backend toy_lm toy_scores).
  { intros batch. reflexivity. }
  assert (Hnodup : NoDup [3%positive; 1%positive; 2%positive]).
  { apply (bool_decide_unpack _). vm_compute. exact I. }
  split; [exact Hcausal|]. split; [exact Hnodup|]. split; [reflexivity|].
  destruct (loglikelihood_writes_the_answers_scored_alone toy_lm toy_scores
              toy_answer toy_heap [3%positive; 1%positive; 2%positive]
              [Request.mk ("d", "c") None; Request.mk ("a", "bcd") None;
               Request.mk ("", "ca") None] Hcausal Hnodup)
    as (heap' & Hcall & Hframe & Hslot).
  - repeat constructor.
  - repeat constructor; unfold len; simpl; lia.
  - repeat constructor.
  - exists heap'. split; [exact Hcall|].
    split; [exact (Hslot 0%nat 3%positive _ eq_refl eq_refl)|].
    split; [exact (Hslot 1%nat 1%positive _ eq_refl eq_refl)|].
    split; [exact (Hslot 2%nat 2%positive _ eq_refl eq_refl)|].
    split.
    + rewrite (Hframe 5%positive); [reflexivity|].
      apply (bool_decide_unpack _). vm_compute. exact I.
    + rewrite (Hframe 4%positive); [reflexivity|].
      apply (bool_decide_unpack _). vm_compute. exact I.
Defined.
